(** * Verification of the burn/ISO job engine of pysideCDBurner

    Shallow embedding of the parts of [constants.py], [workers.py],
    [utils.py] and [main_window.py] that decide filesystem-mask escalation,
    capacity checks, on-disc size estimation, image size limits, the rate
    estimator, staging of sources and cooperative cancellation. *)

From Stdlib Require Import ZArith Lia QArith Qminmax Qround String Ascii List.
From stdpp Require Import base gmap strings pretty.
Import ListNotations.

Open Scope Z_scope.

(* ------------------------------------------------------------------ *)
(** ** constants.py *)

Definition FS_ISO9660 : Z := 1.
Definition FS_JOLIET : Z := 2.
Definition FS_UDF : Z := 4.

(** Events that a worker emits through its Qt signals. *)
Inductive event :=
| ELog (msg : string)                 (* log.emit *)
| EStatus (msg : string)              (* status.emit *)
| EDone (ok : bool) (msg : string)    (* done.emit *)
| EStopRead (flag : bool)             (* a read of self._stop_requested *)
| ECopyFile (dst : list string).      (* _copy_file_chunked opens dst *)

Definition is_log (e : event) : bool :=
  match e with ELog _ => true | _ => false end.

Definition count_logs (es : list event) : nat := length (filter is_log es).

Definition is_status (e : event) : bool :=
  match e with EStatus _ => true | _ => false end.

Definition count_statuses (es : list event) : nat :=
  length (List.filter is_status es).

(* ------------------------------------------------------------------ *)
(** ** workers.py: [_effective_mask] (identical in BurnWorker and
    IsoCreateWorker) *)

(** [self._max_iso_file_bytes = 4 * 1024**3] *)
Definition max_iso_file_bytes : Z := 4 * 1024 ^ 3.

(** [self.file_system_mask = file_system_mask or (FS_ISO9660 | FS_JOLIET)]
    in the constructor, and again [int(self.file_system_mask or ...)] in
    [_effective_mask]. *)
Definition mask_or_default (m : Z) : Z :=
  if m =? 0 then Z.lor FS_ISO9660 FS_JOLIET else m.

Definition large_file_log : string :=
  "large file detected: ISO/Joliet cannot hold it, switching to UDF".
Definition large_file_status : string :=
  "large file detected: switching to UDF".

(** Returns the mask and the events emitted (log, then status). The
    Korean messages of the source are rendered in English. *)
Definition effective_mask (file_system_mask largest_file : Z)
    : Z * list event :=
  let mask := mask_or_default file_system_mask in
  if largest_file >=? max_iso_file_bytes then
    let iso_bits := Z.land mask (Z.lor FS_ISO9660 FS_JOLIET) in
    if negb (iso_bits =? 0) || (Z.land mask FS_UDF =? 0) then
      (FS_UDF, [ELog large_file_log; EStatus large_file_status])
    else (mask, [])
  else (mask, []).

(* ------------------------------------------------------------------ *)
(** ** main_window.py: [_is_over_capacity] *)

(** [self._capacity_headroom_bytes = 32 * 1024 * 1024] *)
Definition capacity_headroom_bytes : Z := 32 * 1024 * 1024.

(** [int(cap * 0.0025)]. Python evaluates the product in binary floating
    point; since the double nearest to 0.0025 lies above 0.0025, the
    truncated product equals the floor of the exact product cap/400 for
    every capacity below 2^40 bytes. *)
Definition quarter_percent (cap : Z) : Z := cap * 25 / 10000.

(** [_media_capacity_bytes] is [None] or an int; [not cap] covers both
    [None] and [0]. *)
Definition is_over_capacity (media_capacity_bytes : option Z) (size : Z)
    : bool :=
  match media_capacity_bytes with
  | None => false
  | Some cap =>
      if cap =? 0 then false
      else
        let headroom := Z.max capacity_headroom_bytes (quarter_percent cap) in
        size >? Z.max 0 (cap - headroom)
  end.

(* ------------------------------------------------------------------ *)
(** ** main_window.py: [_estimate_image_size] *)

(** [int(size * 0.07)]; as for [quarter_percent], the double nearest to
    0.07 lies above 0.07, so the truncated float product is the floor of
    the exact product for sizes below 2^40 bytes. *)
Definition seven_percent (size : Z) : Z := size * 7 / 100.

(** [use_iso_input] is [self._use_iso_input()] (the "burn an existing
    image" check box), [create_iso] is [self._is_create_iso_mode()]. *)
Definition estimate_image_size (use_iso_input create_iso : bool) (size : Z)
    : Z :=
  if size <=? 0 then 0
  else if use_iso_input && negb create_iso then size
  else if create_iso then size
  else
    let overhead := Z.max (128 * 1024 * 1024) (seven_percent size) in
    size + overhead.

(** The three job modes of the UI, as selected by the two flags. *)
Inductive job_mode := BurnImage | CreateImage | BurnFiles.

Definition mode_flags (m : job_mode) : bool * bool :=
  match m with
  | BurnImage => (true, false)
  | CreateImage => (false, true)
  | BurnFiles => (false, false)
  end.

Definition estimate_on_disc (m : job_mode) (size : Z) : Z :=
  estimate_image_size (fst (mode_flags m)) (snd (mode_flags m)) size.

(* ------------------------------------------------------------------ *)
(** ** workers.py: [_configure_size_limits] (identical in BurnWorker and
    IsoCreateWorker) *)

(** The attributes of the [IMAPI2FS.MsftFileSystemImage] object that the
    function reads and writes. A [BlockSize] of [0] stands for a falsy
    value ([getattr(...) or 2048]); [FreeMediaBlocks] likewise. *)
Record fs_image := {
  image_size_limit : Z;
  block_size_attr : Z;
  free_media_blocks : Z
}.

Definition fsi_block_size (fsi : fs_image) : Z :=
  if block_size_attr fsi =? 0 then 2048 else block_size_attr fsi.

Definition configure_size_limits (fsi : fs_image) (total_bytes : Z)
    : fs_image :=
  (* fsi.ImageSizeLimit = 0 *)
  let fsi := {| image_size_limit := 0;
                block_size_attr := block_size_attr fsi;
                free_media_blocks := free_media_blocks fsi |} in
  let block_size := fsi_block_size fsi in
  let est_blocks := (total_bytes + block_size - 1) / block_size in
  let current_blocks := free_media_blocks fsi in
  let target_blocks :=
    Z.max current_blocks (est_blocks * 2 + (1024 * 1024) / block_size) in
  {| image_size_limit := image_size_limit fsi;
     block_size_attr := block_size_attr fsi;
     free_media_blocks := target_blocks |}.

(** Repeated calls on the same image object: the objects after each call. *)
Fixpoint configure_all (fsi : fs_image) (totals : list Z) : list fs_image :=
  match totals with
  | [] => []
  | t :: ts =>
      let fsi' := configure_size_limits fsi t in
      fsi' :: configure_all fsi' ts
  end.

Fixpoint nondecreasing (l : list Z) : Prop :=
  match l with
  | x :: ((y :: _) as rest) => x <= y /\ nondecreasing rest
  | _ => True
  end.

(* ------------------------------------------------------------------ *)
(** ** workers.py: [_emit_progress_info] of [BurnWorker.run]

    Floats are modelled by exact rationals. Status strings are ASCII, so
    [str.lower] is ASCII lower-casing. *)

Definition ascii_lower (c : ascii) : ascii :=
  let n := nat_of_ascii c in
  if (65 <=? n)%nat && (n <=? 90)%nat then ascii_of_nat (n + 32) else c.

Fixpoint str_lower (s : string) : string :=
  match s with
  | EmptyString => EmptyString
  | String c s' => String (ascii_lower c) (str_lower s')
  end.

(** Python's [sub in s]. *)
Fixpoint str_contains (sub s : string) : bool :=
  String.prefix sub s ||
  match s with
  | EmptyString => false
  | String _ s' => str_contains sub s'
  end.

(** [writing = (status and "writing data" in status.lower()) or status is None] *)
Definition is_writing (status : option string) : bool :=
  match status with
  | None => true
  | Some s =>
      if String.eqb s "" then false
      else str_contains "writing data" (str_lower s)
  end.

(** The values fixed when the write starts. [max_speed_bytes] is [None]
    or [Some (write_speed * 1024)]. *)
Record rate_config := {
  total_bytes_est : Z;
  start_time : Q;
  max_speed_bytes : option Z
}.

(** [self._speed_history] and the two [nonlocal] variables. *)
Record rate_state := {
  speed_history : list Q;
  last_progress : Q;
  last_time : Q
}.

Section rate_estimator.
Local Open Scope Q_scope.

(** [deque(maxlen=8).append]: drop from the left once longer than 8. *)
Definition deque_append (h : list Q) (x : Q) : list Q :=
  let h' := h ++ [x] in
  if (length h' <=? 8)%nat then h' else tl h'.

Definition Qsum (l : list Q) : Q := fold_right Qplus 0 l.

(** Python's [a < b] on floats. *)
Definition Qltb (a b : Q) : bool := negb (Qle_bool b a).

Definition min_elapsed : Q := 1 # 1000000.

(** One call [_emit_progress_info(percent, status)] at time [now]
    ([time.perf_counter()]); returns the new state and the emitted
    [(bytes_per_sec, eta_seconds or None)]. *)
Definition emit_progress_info (cfg : rate_config) (st : rate_state)
    (percent : Z) (status : option string) (now : Q)
    : rate_state * (Q * option Q) :=
  if negb (is_writing status) then
    ({| speed_history := [];
        last_progress := last_progress st;
        last_time := last_time st |}, (0, None))
  else if (total_bytes_est cfg <=? 0)%Z then (st, (0, None))
  else
    let total := inject_Z (total_bytes_est cfg) in
    let pct := Qmax 0 (Qmin 100 (inject_Z percent)) in
    let delta_pct := pct - last_progress st in
    let st :=
      if Qltb 0 delta_pct then
        let bytes_delta := total * (delta_pct / 100) in
        let elapsed := Qmax (now - last_time st) min_elapsed in
        let inst_speed := bytes_delta / elapsed in
        {| speed_history := deque_append (speed_history st) inst_speed;
           last_progress := pct;
           last_time := now |}
      else st in
    let speed :=
      match speed_history st with
      | [] =>
          let elapsed_total := Qmax (now - start_time cfg) min_elapsed in
          let done_bytes := (total * pct) / 100 in
          done_bytes / elapsed_total
      | h => Qsum h / inject_Z (Z.of_nat (length h))
      end in
    let speed :=
      match max_speed_bytes cfg with
      | Some m =>
          if negb (m =? 0)%Z && Qltb (inject_Z m) speed
          then inject_Z m else speed
      | None => speed
      end in
    let done_bytes := (total * pct) / 100 in
    let remaining := Qmax 0 (total - done_bytes) in
    let eta := if Qltb 0 speed then Some (remaining / speed) else None in
    (st, (speed, eta)).

(** A sequence of observations [(now, percent, status)]; returns every
    emitted pair and the final state. *)
Fixpoint run_observations (cfg : rate_config) (st : rate_state)
    (obs : list (Q * Z * option string))
    : list (Q * option Q) * rate_state :=
  match obs with
  | [] => ([], st)
  | (now, p, s) :: rest =>
      let '(st', out) := emit_progress_info cfg st p s now in
      let '(outs, st'') := run_observations cfg st' rest in
      (out :: outs, st'')
  end.

End rate_estimator.

(** [OnUpdate]'s [action_map] in [imapi.py]. *)
Definition action_status (action : Z) : string :=
  match action with
  | 0 => "Unknown/Idle" | 1 => "Validating media" | 2 => "Formatting media"
  | 3 => "Initializing/hibernating" | 4 => "Calculating progress"
  | 5 => "Writing data" | 6 => "Finalizing session" | 7 => "Completed"
  | 8 => "Verifying" | _ => "Action=?"
  end.

(* ------------------------------------------------------------------ *)
(** ** utils.py: staging, and the job runs of workers.py

    The staging directory is a finite map from paths relative to it (lists
    of components) to what the file system holds there. The stop flag
    [self._stop_requested] is set by the UI thread once and never cleared:
    it reads [true] from read number [k] on when [stop_from = Some k], and
    never when [stop_from = None]. Every read is recorded in the trace. *)

Inductive entry := EDir | EFile (data : list nat).

(** A source file or directory: file data as its list of 1 MiB chunks,
    directory entries in [os.listdir] order. *)
#[local] Set Warnings "-register-all".
Inductive src_node :=
| SFile (data : list nat)
| SDir (children : list (string * src_node)).

Record wstate := {
  reads : nat;
  staging : gmap (list string) entry;
  trace : list event
}.

(** Worker code in a state and exception monad; [inl msg] is a raised
    exception with [str(e) = msg]. *)
Definition M (A : Type) : Type := wstate -> (string + A) * wstate.

#[global] Instance M_ret : MRet M := fun A x s => (inr x, s).
#[global] Instance M_bind : MBind M := fun A B f c s =>
  match c s with
  | (inl e, s') => (inl e, s')
  | (inr x, s') => f x s'
  end.
(** Bind with the computation first, so that the bound variable's type is
    known when the continuation is elaborated. *)
Definition bindM {A B} (c : M A) (f : A -> M B) : M B := mbind f c.
Notation "'let!' x := c 'in' k" := (bindM c (fun x => k))
  (at level 200, x name, c at level 100, k at level 200).

Definition raise {A} (msg : string) : M A := fun s => (inl msg, s).
Definition get_staging : M (gmap (list string) entry) :=
  fun s => (inr (staging s), s).
Definition put_staging (g : gmap (list string) entry) : M unit :=
  fun s => (inr tt, {| reads := reads s; staging := g; trace := trace s |}).
Definition emit (e : event) : M unit :=
  fun s => (inr tt, {| reads := reads s; staging := staging s;
                        trace := trace s ++ [e] |}).

Definition stopped_msg : string := "Stopped by user".

Definition excluded : list string :=
  [".venv"; "venv"; "__pycache__"; ".mypy_cache"; ".git"].

(** The workers run on Windows, which compares file names without regard
    to case. On Latin-1 code points, [str.lower] and the case mapping of
    the file system agree: A-Z and the letters 0xC0-0xDE (except 0xD7) pair
    with the code point 32 above, and no other two code points are equal up
    to case. *)
Definition latin1_lower (c : ascii) : ascii :=
  let n := nat_of_ascii c in
  if ((65 <=? n) && (n <=? 90))%nat ||
     ((192 <=? n) && (n <=? 222) && negb (n =? 215))%nat
  then ascii_of_nat (n + 32) else c.

(** A name up to case: two names denote the same file name on Windows
    when their [fold_name]s are equal. *)
Fixpoint fold_name (s : string) : string :=
  match s with
  | EmptyString => EmptyString
  | String c r => String (latin1_lower c) (fold_name r)
  end.

(** Directory listings have names pairwise distinct up to case, at every
    level (Windows directories do). *)
Fixpoint wf_node (n : src_node) : bool :=
  match n with
  | SFile _ => true
  | SDir cs =>
      bool_decide (NoDup (map (fun nc => fold_name nc.1) cs)) &&
      forallb (fun nc => wf_node nc.2) cs
  end.

(** [name_or_item = os.path.basename(src_path.rstrip("\\/")) or "ITEM"] on
    an absolute Windows path ([os.path.abspath] has been applied):
    [ntpath.basename] drops a leading drive ["X:"] and keeps what follows
    the last separator. *)
Definition is_sep (c : ascii) : bool :=
  (Ascii.eqb c "/"%char || Ascii.eqb c "\"%char)%bool.

Fixpoint drop_seps (p : list ascii) : list ascii :=
  match p with
  | c :: rest => if is_sep c then drop_seps rest else p
  | [] => []
  end.

Definition rstrip_seps (p : list ascii) : list ascii :=
  rev (drop_seps (rev p)).

Definition drop_drive (p : list ascii) : list ascii :=
  match p with
  | _ :: c :: rest => if Ascii.eqb c ":"%char then rest else p
  | _ => p
  end.

Fixpoint after_last_sep (acc p : list ascii) : list ascii :=
  match p with
  | [] => rev acc
  | c :: rest => if is_sep c then after_last_sep [] rest
                 else after_last_sep (c :: acc) rest
  end.

Definition base_name_of (src_path : string) : string :=
  let b := after_last_sep [] (drop_drive
             (rstrip_seps (list_ascii_of_string src_path))) in
  match b with
  | [] => "ITEM"
  | _ => string_of_list_ascii b
  end.

Definition is_excluded (name : string) : bool :=
  existsb (String.eqb name) excluded.

(** [os.path.exists(os.path.join(staging_dir, n))]: some staged path
    starts with a top-level name equal to [n] up to case.

    The staging map itself is keyed by the names as written, and the
    lookups of the copy below are exact: every path a copy writes starts
    with a top-level name that no staged name equals up to case (the one
    [unique_name] picks), and below it the names come from directory
    listings, distinct up to case ([wf_node]), so an exact lookup finds
    what the file system would. *)
Definition exists_top (g : gmap (list string) entry) (n : string) : bool :=
  existsb (fun kv : list string * entry =>
             match kv.1 with
             | n' :: _ => String.eqb (fold_name n) (fold_name n')
             | [] => false
             end)
          (map_to_list g).

(** [f"{name}_{n}"] *)
Definition suffixed (name : string) (n : nat) : string :=
  String.append name (String.append "_" (pretty n)).

(** The [while] loop of [unique_name]; [fuel] bounds the iterations (the
    loop stops within [size g] iterations, see [unique_name_first_free]). *)
Fixpoint unique_loop (g : gmap (list string) entry) (name : string)
    (fuel n : nat) (candidate : string) : string :=
  if exists_top g candidate then
    match fuel with
    | O => candidate
    | S fuel' => unique_loop g name fuel' (S n) (suffixed name n)
    end
  else candidate.

Definition unique_name (g : gmap (list string) entry) (name : string)
    : string :=
  unique_loop g name (size g) 1 name.

Section worker.
Variable stop_from : option nat.

Definition flag_at (n : nat) : bool :=
  match stop_from with Some k => (k <=? n)%nat | None => false end.

(** [self._stop_requested] (also [stop_check()]). *)
Definition read_stop : M bool :=
  fun s => let b := flag_at (reads s) in
    (inr b, {| reads := S (reads s); staging := staging s;
               trace := trace s ++ [EStopRead b] |}).

(** [if stop_check and stop_check(): raise RuntimeError("Stopped by user")] *)
Definition stop_checkpoint : M unit :=
  let! b := read_stop in if b then raise stopped_msg else mret tt.

(** The chunk loop of [_copy_file_chunked]: check, read, stop on empty. *)
Fixpoint copy_chunks (dst : list string) (data : list nat) : M unit :=
  stop_checkpoint;;
  match data with
  | [] => mret tt
  | c :: rest =>
      let! g := get_staging in
      let d := match g !! dst with Some (EFile d) => d | _ => [] end in
      put_staging (<[dst := EFile (d ++ [c])]> g);;
      copy_chunks dst rest
  end.

(** [_copy_file_chunked]: [open(dst, "wb")] creates or truncates [dst];
    [shutil.copystat] changes no contents. *)
Definition copy_file_chunked (data : list nat) (dst : list string) : M unit :=
  emit (ECopyFile dst);;
  let! g := get_staging in
  put_staging (<[dst := EFile []]> g);;
  copy_chunks dst data.

(** [os.makedirs(dst, exist_ok=True)] *)
Definition makedirs (dst : list string) : M unit :=
  let! g := get_staging in
  match g !! dst with
  | None => put_staging (<[dst := EDir]> g)
  | Some EDir => mret tt
  | Some (EFile _) => raise "FileExistsError"
  end.

(** [ntpath.normcase]: [s.replace("/", "\\").lower()]. *)
Definition normcase (s : string) : string :=
  fold_name (string_of_list_ascii
    (map (fun c => if Ascii.eqb c "/"%char then "\"%char else c)
         (list_ascii_of_string s))).

(** [shutil.ignore_patterns] on the [excluded] names: on Windows [fnmatch.filter]
    compares [os.path.normcase] of each name with that of each pattern, and
    the patterns have no wildcard, so a name is ignored when it equals one
    of them up to case. *)
Definition ignored (name : string) : bool :=
  existsb (fun pat => String.eqb (normcase name) (normcase pat)) excluded.

(** The entry loop of [_copy_tree_chunked]: skip ignored names, check the
    flag, then recurse into a directory or copy a file with [copy]. *)
Definition copy_entries (copy : src_node -> list string -> M unit)
    (dst : list string) : list (string * src_node) -> M unit :=
  fix go (cs : list (string * src_node)) : M unit :=
    match cs with
    | [] => mret tt
    | (name, c) :: rest =>
        if ignored name then go rest
        else stop_checkpoint;; copy c (dst ++ [name]);; go rest
    end.

(** [_copy_tree_chunked] on a directory, [_copy_file_chunked] on a file
    (the [os.path.isdir] test of the loop). *)
Fixpoint copy_node (n : src_node) (dst : list string) : M unit :=
  match n with
  | SFile data => copy_file_chunked data dst
  | SDir children => makedirs dst;; copy_entries copy_node dst children
  end.

(** [safe_copy_into_staging]. The staging directory already exists (the
    run creates it), so [os.makedirs(staging_dir, exist_ok=True)] changes
    nothing. *)
Definition safe_copy_into_staging (src_path : string) (n : src_node)
    : M unit :=
  let base_name := base_name_of src_path in
  if is_excluded base_name then mret tt
  else
    match n with
    | SDir _ =>
        let! g := get_staging in
        let dst_name := unique_name g base_name in
        copy_node n [dst_name]
    | SFile data =>
        let! g := get_staging in
        let dst_name := unique_name g base_name in
        if is_excluded base_name then mret tt
        else copy_file_chunked data [dst_name]
    end.

(** The staging loop of both [run] methods. *)
Fixpoint stage_sources (source_paths : list (string * src_node)) : M unit :=
  match source_paths with
  | [] => mret tt
  | (p, n) :: rest =>
      stop_checkpoint;; safe_copy_into_staging p n;; stage_sources rest
  end.

(** [try: body except Exception as e: handler(str(e))] *)
Definition try_except (body : M unit) (handler : string -> M unit)
    : M unit :=
  fun s => match body s with
           | (inl e, s') => handler e s'
           | r => r
           end.

(** The [except] branch shared by both workers. *)
Definition on_exception (e : string) : M unit :=
  let! b := read_stop in
  if b then emit (ELog "Stopped by user.");; emit (EDone false stopped_msg)
  else emit (ELog (String.append "Error: " e));; emit (EDone false e).

(** [finally]: [shutil.rmtree(tmpdir)] removes the staging directory. *)
Definition cleanup : M unit := put_staging empty.

(** [fmt.Write(image_stream)] with the [OnUpdate] sink of [imapi.py],
    called [updates] times. When the sink sees the flag it logs and calls
    [CancelWrite]; the platform then fails [Write] with an error (whose
    text is [write_cancelled_msg]). *)
Definition write_cancelled_msg : string := "The request was cancelled.".

Fixpoint burn_write (updates : nat) : M unit :=
  match updates with
  | O => mret tt
  | S k =>
      let! b := read_stop in
      if b then emit (ELog "Cancelling burn...");; raise write_cancelled_msg
      else burn_write k
  end.

(** [BurnWorker.run] burning files (no [iso_path]). Building the file
    system image reads no stop flag and is modelled as succeeding. *)
Definition burn_run (source_paths : list (string * src_node)) (updates : nat)
    : M unit :=
  try_except
    (emit (ELog "Initializing recorder...");;
     emit (ELog "Copying sources into staging...");;
     stage_sources source_paths;;
     emit (ELog "Building file system image...");;
     emit (ELog "Starting burn...");;
     burn_write updates;;
     emit (EStatus "Completed");;
     emit (ELog "Burn completed");;
     emit (EDone true "Completed"))
    on_exception;;
  cleanup.

(** The chunk loop of [IsoCreateWorker.run] writing an image of [chunks]
    non-empty 1 MiB reads: a check before every read, the last read empty. *)
Fixpoint iso_write (chunks : nat) : M unit :=
  stop_checkpoint;;
  match chunks with
  | O => mret tt
  | S k => iso_write k
  end.

(** [IsoCreateWorker.run]; its success message is rendered in English. *)
Definition iso_run (source_paths : list (string * src_node)) (chunks : nat)
    : M unit :=
  try_except
    (emit (ELog "Copying sources into staging...");;
     stage_sources source_paths;;
     emit (EStatus "Building ISO image...");;
     emit (ELog "Writing ISO file...");;
     iso_write chunks;;
     emit (EStatus "Completed");;
     emit (ELog "ISO created");;
     emit (EDone true "ISO created"))
    on_exception;;
  cleanup.

End worker.

(* ------------------------------------------------------------------ *)
(** ** main_window.py: the [done] handlers *)

(** The status text shown on completion (before the reset to "Idle") and
    the [QMessageBox.critical] text, if one is shown. *)
Record ui_report := {
  ui_status : string;
  error_dialog : option string
}.

(** [MainWindow._on_done], connected to [BurnWorker.done]. *)
Definition on_done (ok : bool) (msg : string) : ui_report :=
  if ok then {| ui_status := "Completed"; error_dialog := None |}
  else {| ui_status := if String.eqb msg stopped_msg then "Stopped"
                       else "Failed";
          error_dialog := if String.eqb msg stopped_msg then None
                          else Some msg |}.

(** [MainWindow._on_iso_done], connected to [IsoCreateWorker.done]. *)
Definition on_iso_done (ok : bool) (msg : string) : ui_report :=
  if ok then {| ui_status := "ISO created"; error_dialog := None |}
  else {| ui_status := "Failed"; error_dialog := Some "ISO creation failed." |}.

Definition initial_wstate : wstate :=
  {| reads := 0; staging := empty; trace := [] |}.

Definition done_events (es : list event) : list (bool * string) :=
  omap (fun e => match e with EDone ok m => Some (ok, m) | _ => None end) es.

(** A burn job and an image-creation job as the UI runs them: the worker's
    trace and the report of the handler its [done] signal is connected to. *)
Definition burn_job (stop_from : option nat)
    (source_paths : list (string * src_node)) (updates : nat)
    : list event * option ui_report :=
  let s := snd (burn_run stop_from source_paths updates initial_wstate) in
  (trace s, match done_events (trace s) with
            | [(ok, m)] => Some (on_done ok m)
            | _ => None
            end).

Definition iso_job (stop_from : option nat)
    (source_paths : list (string * src_node)) (chunks : nat)
    : list event * option ui_report :=
  let s := snd (iso_run stop_from source_paths chunks initial_wstate) in
  (trace s, match done_events (trace s) with
            | [(ok, m)] => Some (on_iso_done ok m)
            | _ => None
            end).

(* ------------------------------------------------------------------ *)
(** ** Auxiliary definitions for the statements *)

(** Rate-estimator scenario: a 1 GB job observed at t = 1, 2, 3 s. *)
Definition scenario_config : rate_config :=
  {| total_bytes_est := 1000000000; start_time := 0%Q;
     max_speed_bytes := None |}.

(** The state when the write starts: empty deque, [last_progress = 0.0],
    [last_time = start_time]. *)
Definition scenario_start : rate_state :=
  {| speed_history := []; last_progress := 0%Q; last_time := 0%Q |}.

Definition scenario_observations : list (Q * Z * option string) :=
  [(1%Q, 10, Some (action_status 5));
   (2%Q, 30, Some (action_status 5));
   (3%Q, 30, Some "Finalizing")].

(** No staged path lies at or below [dst]. *)
Definition fresh_under (g : gmap (list string) entry) (dst : list string) : Prop :=
  forall k, dst `prefix_of` k -> g !! k = None.

(** The [k]-th name tried by [unique_name]: [name], [name_1], [name_2], ... *)
Definition candidate_name (name : string) (k : nat) : string :=
  match k with O => name | S _ => suffixed name k end.

(** The files copied in a trace, in order. *)
Definition copied_files (es : list event) : list (list string) :=
  omap (fun e => match e with ECopyFile d => Some d | _ => None end) es.

(** The part of a trace after the first read that found the flag set. *)
Fixpoint after_stop_seen (es : list event) : list event :=
  match es with
  | [] => []
  | EStopRead true :: rest => rest
  | _ :: rest => after_stop_seen rest
  end.

Definition copied_after_stop (es : list event) : list (list string) :=
  copied_files (after_stop_seen es).

(** Three files to stage, as [C:\d\a.txt], [C:\d\b.txt], [C:\d\c.txt]. *)
Definition c8_sources : list (string * src_node) :=
  [("C:\d\a.txt", SFile [1; 2]%nat); ("C:\d\b.txt", SFile [3]%nat);
   ("C:\d\c.txt", SFile [4]%nat)].

(* ------------------------------------------------------------------ *)
(** ** String helpers: Python's [str] methods on [string]

    The locale-file text of translations.py is a Rocq [string]: one
    [ascii] is one code point in 0..255. *)

(** [str.isspace] on code points 0..255. *)
Definition is_py_space (c : ascii) : bool :=
  let n := nat_of_ascii c in
  ((9 <=? n) && (n <=? 13))%nat || ((28 <=? n) && (n <=? 32))%nat ||
  (n =? 133)%nat || (n =? 160)%nat.

(** [str.lstrip] / [str.rstrip] / [str.strip] for a class of characters. *)
Fixpoint lstrip_by (p : ascii -> bool) (s : string) : string :=
  match s with
  | EmptyString => EmptyString
  | String c r => if p c then lstrip_by p r else s
  end.

Fixpoint rstrip_by (p : ascii -> bool) (s : string) : string :=
  match s with
  | EmptyString => EmptyString
  | String c r =>
      match rstrip_by p r with
      | EmptyString => if p c then EmptyString else String c EmptyString
      | r' => String c r'
      end
  end.

Definition strip_by (p : ascii -> bool) (s : string) : string :=
  rstrip_by p (lstrip_by p s).

(** [s.strip()], [s.rstrip()], [s.lstrip()] *)
Definition py_strip (s : string) : string := strip_by is_py_space s.
Definition py_rstrip (s : string) : string := rstrip_by is_py_space s.
Definition py_lstrip (s : string) : string := lstrip_by is_py_space s.

Fixpoint all_chars (p : ascii -> bool) (s : string) : bool :=
  match s with
  | EmptyString => true
  | String c r => p c && all_chars p r
  end.

(** The first character, if any, does not satisfy [p]. *)
Definition head_not (p : ascii -> bool) (s : string) : bool :=
  match s with String c _ => negb (p c) | EmptyString => true end.

(* ------------------------------------------------------------------ *)
(** ** utils.py: [sanitize_volume_label], and the label rules of
    main_window.py

    The volume label is any text the user types: a Python [str], that is a
    sequence of Unicode code points, [pystr]. [str.upper] applies Unicode's
    case table (Python's Unicode database, not part of this program): the
    functions below take it as the argument [upper_char], the full
    upper-case mapping of one code point, which may be several code points
    ('ß' gives "SS"). *)

Definition pystr := list Z.

(** [str.isspace], which is also what the regex class [\s] matches in a
    [str] pattern. *)
Definition is_space_cp (c : Z) : bool :=
  ((9 <=? c) && (c <=? 13)) || ((28 <=? c) && (c <=? 32)) ||
  (c =? 133) || (c =? 160) || (c =? 5760) ||
  ((8192 <=? c) && (c <=? 8202)) || (c =? 8232) || (c =? 8233) ||
  (c =? 8239) || (c =? 8287) || (c =? 12288).

Definition is_space_char (c : Z) : bool := c =? 32.
Definition is_underscore (c : Z) : bool := c =? 95.

(** [str.lstrip] / [str.rstrip] / [str.strip] for a class of code points. *)
Fixpoint lstrip_cp (p : Z -> bool) (s : pystr) : pystr :=
  match s with
  | [] => []
  | c :: r => if p c then lstrip_cp p r else s
  end.

Fixpoint rstrip_cp (p : Z -> bool) (s : pystr) : pystr :=
  match s with
  | [] => []
  | c :: r =>
      match rstrip_cp p r with
      | [] => if p c then [] else [c]
      | r' => c :: r'
      end
  end.

Definition strip_cp (p : Z -> bool) (s : pystr) : pystr :=
  rstrip_cp p (lstrip_cp p s).

(** [s.upper()] *)
Definition str_upper (upper_char : Z -> pystr) (s : pystr) : pystr :=
  flat_map upper_char s.

(** The regex class [[A-Z0-9_]], widened by [a-z], [\-] and the space as
    the flags say. *)
Definition is_label_char (allow_lower allow_space allow_hyphen : bool)
    (c : Z) : bool :=
  ((65 <=? c) && (c <=? 90)) || ((48 <=? c) && (c <=? 57)) || (c =? 95) ||
  (allow_lower && ((97 <=? c) && (c <=? 122))) ||
  (allow_hyphen && (c =? 45)) ||
  (allow_space && (c =? 32)).

(** [re.sub(r"X+", r, s)] for a one-character class [X] given by [p]:
    each maximal run of [p]-characters becomes the single character [r].
    [prev] says that the previous character was in a run. *)
Fixpoint collapse_runs (p : Z -> bool) (r : Z) (prev : bool)
    (s : pystr) : pystr :=
  match s with
  | [] => []
  | c :: rest =>
      if p c then
        if prev then collapse_runs p r true rest
        else r :: collapse_runs p r true rest
      else c :: collapse_runs p r false rest
  end.

(** [s[:n]] *)
Definition py_slice_to (s : pystr) (n : Z) : pystr :=
  if 0 <=? n then firstn (Z.to_nat n) s
  else firstn (length s - Z.to_nat (- n)) s.

Definition sanitize_volume_label (upper_char : Z -> pystr) (label : pystr)
    (max_len : Z) (allow_lower allow_space allow_hyphen : bool)
    (default_label : option pystr) : pystr :=
  let label := strip_cp is_space_cp label in
  let label := if allow_lower then label else str_upper upper_char label in
  let label := if allow_space then collapse_runs is_space_cp 32 false label
               else label in
  let label := map (fun c => if is_label_char allow_lower allow_space
                                  allow_hyphen c then c else 95) label in
  let label := strip_cp is_space_char
                 (collapse_runs is_underscore 95 false label) in
  let label := py_slice_to label max_len in
  match default_label with
  | Some d => match label with [] => py_slice_to d max_len | _ => label end
  | None => label
  end.

(** [MainWindow._label_rules_for_mask] *)
Record label_rules := {
  lr_max_len : Z; lr_allow_lower : bool; lr_allow_space : bool;
  lr_allow_hyphen : bool; lr_desc : string }.

Definition label_rules_for_mask (mask : Z) : label_rules :=
  let has_iso := negb (Z.land mask FS_ISO9660 =? 0) in
  let has_udf := negb (Z.land mask FS_UDF =? 0) in
  if has_iso then
    {| lr_max_len := 16; lr_allow_lower := false; lr_allow_space := false;
       lr_allow_hyphen := false; lr_desc := "ISO9660: A-Z, 0-9, _" |}
  else if has_udf then
    {| lr_max_len := 64; lr_allow_lower := true; lr_allow_space := true;
       lr_allow_hyphen := true; lr_desc := "UDF: loose" |}
  else
    {| lr_max_len := 16; lr_allow_lower := false; lr_allow_space := false;
       lr_allow_hyphen := false; lr_desc := "ISO9660" |}.

(** [MainWindow._normalize_volume_text]: the text the volume field holds
    afterwards ([setText] only runs when the text changes). *)
Definition normalize_volume_text (upper_char : Z -> pystr) (fs_mask : Z)
    (orig : pystr) : pystr :=
  let rules := label_rules_for_mask fs_mask in
  let normalized := sanitize_volume_label upper_char orig (lr_max_len rules)
                      (lr_allow_lower rules) (lr_allow_space rules)
                      (lr_allow_hyphen rules) (Some []) in
  if bool_decide (normalized = orig) then orig else normalized.

(** No two neighbouring characters both satisfy [p]. *)
Fixpoint no_adj (p : Z -> bool) (s : pystr) : bool :=
  match s with
  | c :: ((c' :: _) as r) => negb (p c && p c') && no_adj p r
  | _ => true
  end.

(** The first character, if any, does not satisfy [p]. *)
Definition head_not_cp (p : Z -> bool) (s : pystr) : bool :=
  match s with c :: _ => negb (p c) | [] => true end.

(** Text written in Latin-1, as code points (for examples). *)
Definition cps (s : string) : pystr :=
  map (fun c => Z.of_nat (nat_of_ascii c)) (list_ascii_of_string s).

(** [str.upper] on the Latin-1 code points U+0000..U+00FF as Python's
    Unicode table has it; other code points are kept (a case table for
    examples). *)
Definition upper_latin1 (c : Z) : pystr :=
  if (97 <=? c) && (c <=? 122) then [c - 32]
  else if c =? 181 then [924]
  else if c =? 223 then [83; 83]
  else if (224 <=? c) && (c <=? 254) && negb (c =? 247) then [c - 32]
  else if c =? 255 then [376]
  else [c].
(* ------------------------------------------------------------------ *)
(** ** translations.py *)

Definition backslash : ascii := "\"%char.
Definition newline_char : ascii := ascii_of_nat 10.
Definition tab_char : ascii := ascii_of_nat 9.

(** [s.replace(a + b, new)] for a two-character pattern: scan from the
    left, replacing non-overlapping occurrences. *)
Fixpoint replace2 (a b : ascii) (new : string) (s : string) : string :=
  match s with
  | String c1 ((String c2 rest) as t) =>
      if Ascii.eqb c1 a && Ascii.eqb c2 b then new ++ replace2 a b new rest
      else String c1 (replace2 a b new t)
  | _ => s
  end.

(** [_unescape_value] *)
Definition unescape_value (value : string) : string :=
  let value := replace2 backslash backslash (String backslash "") value in
  let value := replace2 backslash "n"%char (String newline_char "") value in
  let value := replace2 backslash "t"%char (String tab_char "") value in
  value.

(** [s] contains the two characters [a], [b] next to each other. *)
Fixpoint has_pair (a b : ascii) (s : string) : bool :=
  match s with
  | String c1 ((String c2 _) as t) =>
      (Ascii.eqb c1 a && Ascii.eqb c2 b) || has_pair a b t
  | _ => false
  end.

Definition META_SECTION : string := "meta".
Definition TRANSLATION_SECTION : string := "translations".

Fixpoint str_last (s : string) : option ascii :=
  match s with
  | EmptyString => None
  | String c EmptyString => Some c
  | String _ r => str_last r
  end.

(** [s.endswith(c)] for a one-character [c]. *)
Definition py_endswith_char (c : ascii) (s : string) : bool :=
  match str_last s with Some c' => Ascii.eqb c c' | None => false end.

(** [raw.split("=", 1)] when ["=" in raw]. *)
Fixpoint split_first_eq (s : string) : option (string * string) :=
  match s with
  | EmptyString => None
  | String c r =>
      if Ascii.eqb c "="%char then Some (EmptyString, r)
      else match split_first_eq r with
           | Some (k, v) => Some (String c k, v)
           | None => None
           end
  end.

(** The local variables of the line loop of [_parse_ini_file]. *)
Record ini_state := {
  ini_code : string;
  ini_name : option string;
  ini_trans : gmap string string;
  ini_section : option string }.

(** One iteration of the line loop of [_parse_ini_file]. *)
Definition ini_step (st : ini_state) (raw : string) : ini_state :=
  let stripped := py_strip raw in
  if String.eqb stripped "" || String.prefix "#" stripped ||
     String.prefix ";" stripped then st
  else if String.prefix "[" stripped && py_endswith_char "]"%char stripped then
    {| ini_code := ini_code st; ini_name := ini_name st;
       ini_trans := ini_trans st;
       ini_section := Some (py_strip (substring 1 (String.length stripped - 2)
                                        stripped)) |}
  else
    match split_first_eq raw with
    | None => st
    | Some (key, value) =>
        let key := py_rstrip key in
        let value := py_lstrip value in
        let section := match ini_section st with
                       | Some s => if String.eqb s "" then TRANSLATION_SECTION else s
                       | None => TRANSLATION_SECTION
                       end in
        if String.eqb section META_SECTION then
          if String.eqb key "code" && negb (String.eqb value "") then
            {| ini_code := (let v := py_strip value in
                            if String.eqb v "" then ini_code st else v);
               ini_name := ini_name st; ini_trans := ini_trans st;
               ini_section := ini_section st |}
          else if String.eqb key "name" && negb (String.eqb value "") then
            {| ini_code := ini_code st; ini_name := Some (py_strip value);
               ini_trans := ini_trans st; ini_section := ini_section st |}
          else st
        else if negb (String.eqb section TRANSLATION_SECTION) then st
        else
          {| ini_code := ini_code st; ini_name := ini_name st;
             ini_trans := <[key := unescape_value value]> (ini_trans st);
             ini_section := ini_section st |}
    end.

(** [_parse_ini_file] on a file whose stem is [stem] and whose text has the
    lines [lines] ([read_text().splitlines()]). *)
Definition parse_ini_file (stem : string) (lines : list string)
    : string * gmap string string * option string :=
  let st := fold_left ini_step lines
              {| ini_code := stem; ini_name := None; ini_trans := ∅;
                 ini_section := None |} in
  (ini_code st, ini_trans st, ini_name st).

Definition DEFAULT_LANGUAGE_NAMES : gmap string string := {[ "en" := "English" ]}.

(** [dict.setdefault(k, v)] *)
Definition setdefault (k v : string) (m : gmap string string) : gmap string string :=
  match m !! k with Some _ => m | None => <[k := v]> m end.

(** One iteration of the file loop of [_load_translations].
    [DEFAULT_TRANSLATIONS] is empty, so [translations] starts empty. *)
Definition load_step (acc : gmap string (gmap string string) * gmap string string)
    (f : string * list string)
    : gmap string (gmap string string) * gmap string string :=
  let '(tr, names) := acc in
  let '(lang_code, parsed, lang_name) := parse_ini_file f.1 f.2 in
  let merged := parsed ∪ default ∅ (tr !! lang_code) in
  (<[lang_code := merged]> tr,
   match lang_name with
   | Some n => if String.eqb n "" then names else setdefault lang_code n names
   | None => names
   end).

(** [_load_translations] over the [*.ini] files of the locales directory,
    in sorted order, each given by its stem and lines. The final loop
    visits the languages of [translations]; its [setdefault] calls are on
    distinct keys, so the order of [map_to_list] gives the same result as
    the dict's. *)
Definition load_translations (files : list (string * list string))
    : gmap string (gmap string string) * gmap string string :=
  let '(translations, language_names) :=
    fold_left load_step files (∅, DEFAULT_LANGUAGE_NAMES) in
  (translations,
   fold_left (fun names lang => setdefault lang lang names)
     (map fst (map_to_list translations)) language_names).

(** A [key=value] line of a locale file. *)
Definition ini_entry_line (kv : string * string) : string :=
  kv.1 ++ String "="%char kv.2.

(** A locale file in the layout the parser reads: a [[meta]] section with
    the language code and name, then a [[translations]] section. *)
Definition ini_file_lines (code name : string) (kvs : list (string * string))
    : list string :=
  "[meta]" :: ini_entry_line ("code", code) :: ini_entry_line ("name", name) ::
  "[translations]" ::
  map ini_entry_line kvs.

(** The characters that make a stripped line a comment or a header. *)
Definition is_ini_marker (c : ascii) : bool :=
  Ascii.eqb c "#"%char || Ascii.eqb c ";"%char || Ascii.eqb c "["%char.

(** A key the parser reads back as written: no [=], no trailing whitespace,
    and its first non-blank character does not start a comment or header. *)
Definition ini_key_ok (k : string) : bool :=
  all_chars (fun c => negb (Ascii.eqb c "="%char)) k &&
  String.eqb (py_rstrip k) k && head_not is_ini_marker (py_lstrip k).

(** An entry whose value has no leading whitespace and no backslash. *)
Definition ini_entry_ok (kv : string * string) : bool :=
  ini_key_ok kv.1 && head_not is_py_space kv.2 &&
  all_chars (fun c => negb (Ascii.eqb c backslash)) kv.2.

(** A nonempty metadata value without surrounding whitespace. *)
Definition ini_meta_ok (v : string) : bool :=
  negb (String.eqb v "") && String.eqb (py_strip v) v.

(* ------------------------------------------------------------------ *)
(** ** imapi.py: [DiscFormat2DataEvents.OnUpdate]

    The sink as [BurnWorker.run] wires it: all three emitters and the stop
    check are set. The [int(...)] conversions of the event arguments are
    given as options, [None] standing for a conversion that raised. *)

(** [action_map.get(action, f"Action={action}")] *)
Definition status_of_action (action : Z) : string :=
  if (0 <=? action) && (action <=? 8) then action_status action
  else String.append "Action=" (pretty action).

Record sink_state := {
  sink_last_percent : Z;           (* self._last_percent *)
  sink_last_action : option Z }.   (* self._last_action *)

Definition sink_init : sink_state :=
  {| sink_last_percent := -1; sink_last_action := None |}.

Inductive sink_out :=
| SLog (msg : string)                 (* self._emit_log(...) *)
| SStatus (msg : string)              (* self._emit_status(...) *)
| SProgress (percent : Z) (status : string)   (* self._emit_progress(...) *)
| SCancelWrite.                       (* sender.CancelWrite() *)

(** [int(max(0, min(100, ((last - start) * 100) / count)))]. The division
    is a float one; for sector numbers below [2^32] its rounding never
    crosses an integer, so it is taken exactly here. *)
Definition update_percent (lba : option (Z * Z * Z)) : option Z :=
  match lba with
  | Some (start, last, count) =>
      if 0 <? count then
        Some (Qfloor (Qmax 0 (Qmin 100
                (inject_Z ((last - start) * 100) / inject_Z count))))
      else None
  | None => None
  end.

(** One call [OnUpdate(sender, args)]; [stop] is [self._stop_check()]. *)
Definition on_update (st : sink_state) (stop : bool) (action_arg : option Z)
    (lba : option (Z * Z * Z)) : sink_state * list sink_out :=
  if stop then (st, [SLog "Cancelling burn..."; SCancelWrite]) else
  let action := default (-1) action_arg in
  let percent := update_percent lba in
  let status := status_of_action action in
  let '(last_action, logs) :=
    if bool_decide (Some action = sink_last_action st) then
      (sink_last_action st, [])
    else (Some action, [SLog (String.append "Status: " status)]) in
  let outs := logs ++ [SStatus status] in
  match percent with
  | Some p =>
      if negb (p =? sink_last_percent st) then
        ({| sink_last_percent := p; sink_last_action := last_action |},
         outs ++ [SProgress p status])
      else ({| sink_last_percent := sink_last_percent st;
               sink_last_action := last_action |}, outs)
  | None => ({| sink_last_percent := sink_last_percent st;
                sink_last_action := last_action |}, outs)
  end.

(** The sink receiving a sequence of events
    [(stop, CurrentAction, (StartLba, LastWrittenLba, SectorCount))]. *)
Fixpoint on_updates (st : sink_state)
    (evs : list (bool * option Z * option (Z * Z * Z))) : list sink_out :=
  match evs with
  | [] => []
  | (stop, a, lba) :: rest =>
      let '(st', outs) := on_update st stop a lba in
      outs ++ on_updates st' rest
  end.

Definition progress_values (outs : list sink_out) : list Z :=
  flat_map (fun o => match o with SProgress p _ => [p] | _ => [] end) outs.

Fixpoint adj_distinct (l : list Z) : bool :=
  match l with
  | x :: ((y :: _) as r) => negb (x =? y) && adj_distinct r
  | _ => true
  end.

(* ------------------------------------------------------------------ *)
(** ** main_window.py: the source list and its size bookkeeping

    The list widget holds the item texts [pl_items] in order. A size
    worker ([SizeWorker]) emits [result] and then [finished]; both are
    queued to the UI thread in that order, so the two slots run one after
    the other for the worker in [pl_worker]. The size it reports is
    [_compute_path_size(path)], which catches [OSError] and returns a byte
    count. *)

Section path_list.

(** [os.path.abspath] *)
Variable abspath : string -> string.

Record path_list := {
  pl_items : list string;          (* the texts of self.list *)
  pl_sizes : gmap string Z;        (* self._path_sizes *)
  pl_pending : gset string;        (* self._pending_size *)
  pl_queue : list string;          (* self._size_queue *)
  pl_total : Z;                    (* self._total_size *)
  pl_worker : option string }.     (* the path of self._current_size_worker *)

Definition pl_init : path_list :=
  {| pl_items := []; pl_sizes := ∅; pl_pending := ∅; pl_queue := [];
     pl_total := 0; pl_worker := None |}.

(** [list.remove(x)] / [takeItem] of the first occurrence; [deque.remove]
    raising [ValueError] when absent is caught, leaving the list as is. *)
Fixpoint remove_first (x : string) (l : list string) : list string :=
  match l with
  | [] => []
  | y :: r => if String.eqb x y then r else y :: remove_first x r
  end.

(** [_process_next_size_worker] *)
Definition process_next_size_worker (s : path_list) : path_list :=
  match pl_worker s, pl_queue s with
  | None, p :: q =>
      {| pl_items := pl_items s; pl_sizes := pl_sizes s;
         pl_pending := pl_pending s; pl_queue := q; pl_total := pl_total s;
         pl_worker := Some p |}
  | _, _ => s
  end.

(** [_start_size_worker] *)
Definition start_size_worker (path : string) (s : path_list) : path_list :=
  process_next_size_worker
    {| pl_items := pl_items s; pl_sizes := pl_sizes s;
       pl_pending := pl_pending s; pl_queue := pl_queue s ++ [path];
       pl_total := pl_total s; pl_worker := pl_worker s |}.

(** [_add_path] *)
Definition add_path (p : string) (s : path_list) : path_list :=
  let p := abspath p in
  if existsb (String.eqb p) (pl_items s) then s
  else start_size_worker p
    {| pl_items := pl_items s ++ [p]; pl_sizes := <[p := 0]> (pl_sizes s);
       pl_pending := {[p]} ∪ pl_pending s; pl_queue := pl_queue s;
       pl_total := pl_total s; pl_worker := pl_worker s |}.

(** The body of the loop of [remove_selected] for the item [path]. *)
Definition remove_item (s : path_list) (path : string) : path_list :=
  let size := default 0 (pl_sizes s !! path) in
  {| pl_items := remove_first path (pl_items s);
     pl_sizes := delete path (pl_sizes s);
     pl_pending := pl_pending s ∖ {[path]};
     pl_queue := remove_first path (pl_queue s);
     pl_total := Z.max 0 (pl_total s - size);
     pl_worker := pl_worker s |}.

(** [remove_selected], the selected items given by their texts. *)
Definition remove_selected (sel : list string) (s : path_list) : path_list :=
  fold_left remove_item sel s.

(** [_clear_list] *)
Definition clear_list (s : path_list) : path_list :=
  {| pl_items := []; pl_sizes := ∅; pl_pending := ∅; pl_queue := [];
     pl_total := 0; pl_worker := pl_worker s |}.

(** [_on_size_computed(path, size)] *)
Definition on_size_computed (path : string) (size : Z) (s : path_list)
    : path_list :=
  match pl_sizes s !! path with
  | None =>
      {| pl_items := pl_items s; pl_sizes := pl_sizes s;
         pl_pending := pl_pending s ∖ {[path]}; pl_queue := pl_queue s;
         pl_total := pl_total s; pl_worker := pl_worker s |}
  | Some prev =>
      {| pl_items := pl_items s; pl_sizes := <[path := size]> (pl_sizes s);
         pl_pending := pl_pending s ∖ {[path]}; pl_queue := pl_queue s;
         pl_total := pl_total s + Z.max 0 size - prev;
         pl_worker := pl_worker s |}
  end.

(** [_on_size_worker_finished] *)
Definition on_size_worker_finished (s : path_list) : path_list :=
  process_next_size_worker
    {| pl_items := pl_items s; pl_sizes := pl_sizes s;
       pl_pending := pl_pending s; pl_queue := pl_queue s;
       pl_total := pl_total s; pl_worker := None |}.

Inductive list_event :=
| LAdd (p : string)                 (* _add_path (drop or file dialog) *)
| LRemove (sel : list string)       (* the Remove button *)
| LClear                            (* the Clear button *)
| LSizeDone (size : Z).             (* the running size worker completes *)

Definition list_step (s : path_list) (e : list_event) : path_list :=
  match e with
  | LAdd p => add_path p s
  | LRemove sel => remove_selected sel s
  | LClear => clear_list s
  | LSizeDone size =>
      match pl_worker s with
      | Some path => on_size_worker_finished (on_size_computed path size s)
      | None => s
      end
  end.

Definition run_list_events (evs : list list_event) : path_list :=
  fold_left list_step evs pl_init.

End path_list.

Definition zsum (f : string -> Z) (l : list string) : Z :=
  fold_right Z.add 0 (map f l).

(** The sum of the recorded sizes of the listed paths. *)
Definition listed_total (s : path_list) : Z :=
  zsum (fun p => default 0 (pl_sizes s !! p)) (pl_items s).

Definition size_results_nonneg (evs : list list_event) : Prop :=
  forall size, In (LSizeDone size) evs -> 0 <= size.

(** What the bookkeeping of the source list keeps. *)
Definition pl_inv (s : path_list) : Prop :=
  NoDup (pl_items s) /\
  (forall p, In p (pl_items s) <-> is_Some (pl_sizes s !! p)) /\
  (forall p v, pl_sizes s !! p = Some v -> 0 <= v) /\
  pl_total s = listed_total s /\
  (forall p, p ∈ pl_pending s -> In p (pl_queue s) \/ pl_worker s = Some p) /\
  (pl_worker s = None -> pl_queue s = []).

(* ------------------------------------------------------------------ *)
(** ** What a copy of a source tree holds *)

(** The first entry of a directory listing with the given name. *)
Fixpoint find_child (cs : list (string * src_node)) (name : string)
    : option src_node :=
  match cs with
  | [] => None
  | (nm, c) :: rest => if String.eqb nm name then Some c else find_child rest name
  end.

(** The entry at relative path [k] in the copy of [n] that
    [_copy_tree_chunked] makes: ignored names are left out at every level. *)
Fixpoint tree_lookup (n : src_node) (k : list string) : option entry :=
  match k, n with
  | [], SFile d => Some (EFile d)
  | [], SDir _ => Some EDir
  | _ :: _, SFile _ => None
  | name :: rest, SDir cs =>
      if ignored name then None
      else (fix find (cs : list (string * src_node)) : option entry :=
              match cs with
              | [] => None
              | (nm, c) :: r => if String.eqb nm name then tree_lookup c rest
                                else find r
              end) cs
  end.

(* ------------------------------------------------------------------ *)
(** ** main_window.py: [_update_media_usage_label] *)

(** What the media usage label shows. *)
Inductive media_label :=
| MLDirty                   (* burning: only _media_usage_dirty is set *)
| MLCalculating             (* "Media usage: calculating..." *)
| MLUsage (est usable : Z) (pct : Q) (cap : Z) (warn : bool)
    (* "Media: {est} of {usable} usable ({pct:.1f}%, total {cap})",
       in the warning colour when [warn] *)
| MLPlain (current : Z) (cap : option Z).
    (* "Media usage: {current} / {cap or 'unknown'}" *)

(** [_update_media_usage_label]; [pending] is [bool(self._pending_size)],
    [iso_path_set] is [bool(self._iso_path)]. [pct] is computed in floats
    by the code; here it is the exact quotient. *)
Definition update_media_usage_label (burning use_iso_input create_iso pending
    iso_path_set : bool) (iso_size : option Z) (total_size : Z)
    (media_capacity_bytes : option Z) : media_label :=
  if burning then MLDirty else
  let use_iso := use_iso_input && negb create_iso in
  if pending && negb use_iso then MLCalculating else
  if use_iso && iso_path_set && negb (bool_decide (is_Some iso_size))
  then MLCalculating else
  let current_size :=
    if use_iso then match iso_size with Some n => n | None => 0 end
    else total_size in
  match media_capacity_bytes with
  | Some cap =>
      if negb (cap =? 0) && negb create_iso then
        let est_size := estimate_image_size use_iso_input create_iso current_size in
        let headroom := Z.max capacity_headroom_bytes (quarter_percent cap) in
        let usable := Z.max 0 (cap - headroom) in
        let pct := if usable =? 0 then 0%Q
                   else (inject_Z est_size / inject_Z usable * 100)%Q in
        MLUsage est_size usable pct cap
          (is_over_capacity media_capacity_bytes est_size)
      else MLPlain current_size media_capacity_bytes
  | None => MLPlain current_size media_capacity_bytes
  end.

(* ------------------------------------------------------------------ *)
(** ** Helpers for the volume label facts *)

(** Boolean tests on code points turned into arithmetic, for [lia]. *)
Ltac zbool :=
  repeat first
    [ rewrite orb_true_iff in * | rewrite andb_true_iff in *
    | rewrite orb_false_iff in * | rewrite andb_false_iff in *
    | rewrite Z.leb_le in * | rewrite Z.leb_gt in *
    | rewrite Z.eqb_eq in * | rewrite Z.eqb_neq in *
    | rewrite negb_true_iff in * | rewrite negb_false_iff in * ].

Definition label_repl (lo sp hy : bool) (c : Z) : Z :=
  if is_label_char lo sp hy c then c else 95.

(** [str.upper] keeps the characters of the label classes ([A-Z], [0-9],
    [_], [-] and the space) as they are, as Unicode's case table does. *)
Definition upper_keeps_label (upper_char : Z -> pystr) : Prop :=
  forall c, is_label_char false true true c = true -> upper_char c = [c].

(** What the pipeline before the default test produces (the result with
    [default_label = None]). *)
Definition clean_label (lo sp hy : bool) (s : pystr) : bool :=
  forallb (is_label_char lo sp hy) s && no_adj is_underscore s &&
  no_adj is_space_char s && head_not_cp is_space_char s.

(* ================================================================== *)
(** * Theorems *)

(* ------------------------------------------------------------------ *)
(** ** Filesystem-mask escalation *)

(** C1 (counterexample): a largest file of exactly 4 GiB - 1 bytes with an
    ISO9660+Joliet request does not escalate: the mask stays 3. *)
Lemma C1_counterexample :
  let l := 4 * 1024 ^ 3 - 1 in
  l >= 4 * 1024 ^ 3 - 1 /\
  Z.land (Z.lor FS_ISO9660 FS_JOLIET) (Z.lor FS_ISO9660 FS_JOLIET) <> 0 /\
  fst (effective_mask (Z.lor FS_ISO9660 FS_JOLIET) l) = 3 /\
  fst (effective_mask (Z.lor FS_ISO9660 FS_JOLIET) l) <> FS_UDF.
Proof. vm_compute. repeat split; congruence. Qed.

(** C1 (amended): with the requested mask [m] (a mask of 0 replaced by
    ISO9660|Joliet), the effective mask is UDF-only exactly when the
    largest file has at least 4 GiB and the mask has the ISO9660 or Joliet
    bit or lacks the UDF bit; otherwise it is the mask unchanged. *)
Theorem C1_effective_mask_rule (m l : Z) :
  let r := mask_or_default m in
  fst (effective_mask m l) =
    if decide (4 * 1024 ^ 3 <= l /\
               (Z.land r (Z.lor FS_ISO9660 FS_JOLIET) <> 0 \/
                Z.land r FS_UDF = 0))
    then FS_UDF else r.
Proof.
  cbv zeta. unfold effective_mask, max_iso_file_bytes.
  set (r := mask_or_default m).
  destruct (decide _) as [[Hl Hb]|Hn].
  - replace (l >=? 4 * 1024 ^ 3) with true by (symmetry; apply Z.geb_le; lia).
    destruct Hb as [Hb|Hb].
    + apply Z.eqb_neq in Hb. rewrite Hb. reflexivity.
    + apply Z.eqb_eq in Hb. rewrite Hb, orb_true_r. reflexivity.
  - destruct (l >=? 4 * 1024 ^ 3) eqn:El; [|reflexivity].
    apply Z.geb_le in El.
    destruct (Z.land r (Z.lor FS_ISO9660 FS_JOLIET) =? 0) eqn:E1;
    destruct (Z.land r FS_UDF =? 0) eqn:E2; simpl; try reflexivity;
    exfalso; apply Hn; (split; [lia|]);
    first [left; apply Z.eqb_neq; assumption
          | right; apply Z.eqb_eq; assumption].
Qed.

(** C2 (counterexample): with the UDF-only mask and a 4 GiB file no log
    notice is emitted. *)
Lemma C2_counterexample :
  fst (effective_mask FS_UDF (4 * 1024 ^ 3)) = FS_UDF /\
  count_logs (snd (effective_mask FS_UDF (4 * 1024 ^ 3))) = 0%nat.
Proof. vm_compute. split; reflexivity. Qed.

(** C2 (amended): for every mask built from the three bits and a largest
    file of at least 4 GiB the effective mask is UDF-only. Unless the
    requested mask is already UDF-only, the worker emits exactly one log
    notice followed by one status notice; for the UDF-only mask it emits
    nothing. *)
Theorem C2_large_file_forces_udf (m l : Z) :
  0 <= m <= 7 -> 4 * 1024 ^ 3 <= l ->
  fst (effective_mask m l) = FS_UDF /\
  snd (effective_mask m l) =
    (if m =? FS_UDF then [] else [ELog large_file_log; EStatus large_file_status]) /\
  count_logs (snd (effective_mask m l)) = (if m =? FS_UDF then 0%nat else 1%nat) /\
  count_statuses (snd (effective_mask m l)) = (if m =? FS_UDF then 0%nat else 1%nat).
Proof.
  intros Hm Hl. unfold effective_mask, max_iso_file_bytes.
  replace (l >=? 4 * 1024 ^ 3) with true by (symmetry; apply Z.geb_le; lia).
  assert (m = 0 \/ m = 1 \/ m = 2 \/ m = 3 \/ m = 4 \/ m = 5 \/ m = 6 \/ m = 7)
    as Hc by lia.
  repeat destruct Hc as [->|Hc]; try subst m; vm_compute; repeat split.
Qed.

Lemma C2_witness :
  (0 <= 3 <= 7 /\ 4 * 1024 ^ 3 <= 5 * 1024 ^ 3) /\
  fst (effective_mask 3 (5 * 1024 ^ 3)) = FS_UDF /\
  snd (effective_mask 3 (5 * 1024 ^ 3)) =
    [ELog large_file_log; EStatus large_file_status].
Proof.
  split; [split; lia|].
  destruct (C2_large_file_forces_udf 3 (5 * 1024 ^ 3)) as [H1 [H2 _]]; [lia|lia|].
  split; [exact H1|exact H2].
Defined.

(* ------------------------------------------------------------------ *)
(** ** Capacity check *)

(** C3 (counterexample): a capacity of 1000 bytes has a headroom of
    32 MiB; an empty estimate is not over capacity, although
    0 > 1000 - 32 MiB. *)
Lemma C3_counterexample :
  0 > 1000 - Z.max (32 * 1024 * 1024) 3 /\
  is_over_capacity (Some 1000) 0 = false.
Proof. vm_compute. split; reflexivity. Qed.

(** C3 (amended): for a positive capacity, over-capacity holds iff the
    estimate exceeds max(0, capacity - headroom), headroom =
    max(32 MiB, floor(capacity * 0.0025)); false at that threshold, true
    one byte above; and the 700,000,000 / 690,000,000 scenario. *)
Theorem C3_over_capacity_threshold (cap est : Z) :
  0 < cap ->
  let headroom := Z.max (32 * 1024 * 1024) (cap * 25 / 10000) in
  let usable := Z.max 0 (cap - headroom) in
  (is_over_capacity (Some cap) est = true <-> est > usable) /\
  is_over_capacity (Some cap) usable = false /\
  is_over_capacity (Some cap) (usable + 1) = true /\
  (Z.max (32 * 1024 * 1024) (700000000 * 25 / 10000) = 33554432 /\
   Z.max 0 (700000000 - 33554432) = 666445568 /\
   is_over_capacity (Some 700000000) 690000000 = true).
Proof.
  intros Hcap. cbv zeta.
  unfold is_over_capacity, quarter_percent, capacity_headroom_bytes.
  replace (cap =? 0) with false by (symmetry; apply Z.eqb_neq; lia).
  split; [split|split; [|split]].
  - intros H. apply Z.gtb_lt in H. lia.
  - intros H. apply Z.gtb_lt. lia.
  - rewrite Z.gtb_ltb. apply Z.ltb_ge. lia.
  - apply Z.gtb_lt. lia.
  - vm_compute. repeat split; reflexivity.
Qed.

Lemma C3_witness :
  0 < 700000000 /\
  is_over_capacity (Some 700000000) 666445568 = false.
Proof.
  split; [lia|].
  apply (C3_over_capacity_threshold 700000000 0). lia.
Defined.

(* ------------------------------------------------------------------ *)
(** ** On-disc size estimate *)

(** C4 (counterexample): an empty staging set in direct-burn mode is
    estimated at 0, not at 0 + 128 MiB. *)
Lemma C4_counterexample :
  estimate_on_disc BurnFiles 0 = 0 /\
  estimate_on_disc BurnFiles 0 <> 0 + Z.max (128 * 1024 * 1024) (0 * 7 / 100).
Proof. vm_compute. split; congruence. Qed.

(** C4 (amended): a non-positive content size is estimated at 0 in every
    mode; a positive one is left unchanged when burning an existing image
    or creating an image, and gets max(128 MiB, floor(7% of it)) added when
    burning files directly; 3,500,000 bytes give 3,500,000 + 134,217,728. *)
Theorem C4_estimate_by_mode (c : Z) :
  (c <= 0 -> forall use_iso create, estimate_image_size use_iso create c = 0) /\
  (0 < c ->
     estimate_on_disc BurnImage c = c /\
     (forall use_iso, estimate_image_size use_iso true c = c) /\
     estimate_on_disc BurnFiles c = c + Z.max (128 * 1024 * 1024) (c * 7 / 100)) /\
  estimate_on_disc BurnFiles 3500000 = 3500000 + 134217728.
Proof.
  unfold estimate_on_disc, estimate_image_size, seven_percent; simpl.
  split; [|split].
  - intros Hc use_iso create.
    replace (c <=? 0) with true by (symmetry; apply Z.leb_le; lia).
    reflexivity.
  - intros Hc.
    replace (c <=? 0) with false by (symmetry; apply Z.leb_gt; lia).
    split; [reflexivity|split; [|reflexivity]].
    intros [|]; reflexivity.
  - vm_compute. reflexivity.
Qed.

Lemma estimate_nonneg (use_iso create : bool) (c : Z) :
  0 <= estimate_image_size use_iso create c.
Proof.
  unfold estimate_image_size, seven_percent.
  destruct (c <=? 0) eqn:E; [lia|]. apply Z.leb_gt in E.
  destruct (use_iso && negb create); [lia|]. destruct create; lia.
Qed.

(** C5: for fixed mode flags the estimate is non-decreasing in the content
    size. *)
Theorem C5_estimate_monotone (use_iso create : bool) (a b : Z) :
  a <= b ->
  estimate_image_size use_iso create a <= estimate_image_size use_iso create b.
Proof.
  intros Hab.
  destruct (a <=? 0) eqn:Ea.
  - unfold estimate_image_size at 1. rewrite Ea. apply estimate_nonneg.
  - apply Z.leb_gt in Ea.
    unfold estimate_image_size, seven_percent.
    replace (a <=? 0) with false by (symmetry; apply Z.leb_gt; lia).
    replace (b <=? 0) with false by (symmetry; apply Z.leb_gt; lia).
    destruct (use_iso && negb create); [lia|].
    destruct create; [lia|].
    assert (a * 7 / 100 <= b * 7 / 100) by (apply Z.div_le_mono; lia).
    lia.
Qed.

Lemma C5_witness :
  0 <= 1 /\ estimate_image_size false false 0 <= estimate_image_size false false 1.
Proof.
  split; [lia|]. apply (C5_estimate_monotone false false 0 1). lia.
Defined.

(* ------------------------------------------------------------------ *)
(** ** Image size limits *)

Lemma configure_size_limits_grows (fsi : fs_image) (t : Z) :
  free_media_blocks fsi <= free_media_blocks (configure_size_limits fsi t).
Proof. simpl. lia. Qed.

Lemma configure_all_nondecreasing (ts : list Z) (fsi : fs_image) :
  nondecreasing (map free_media_blocks (fsi :: configure_all fsi ts)).
Proof.
  revert fsi. induction ts as [|t ts IH]; intros fsi; [exact I|].
  simpl. split; [apply configure_size_limits_grows|].
  apply (IH (configure_size_limits fsi t)).
Qed.

(** C7: with a positive block size, the estimated block count is
    ceil(totalBytes / blockSize) (the least multiple count covering the
    bytes), the allowance becomes max(current, 2 * blocks + 1 MiB / block
    size), and over any sequence of calls on the same image object the
    allowance never decreases. *)
Theorem C7_size_limits (fsi : fs_image) (total : Z) :
  0 < fsi_block_size fsi ->
  let bs := fsi_block_size fsi in
  let est := (total + bs - 1) / bs in
  ((est - 1) * bs < total <= est * bs) /\
  free_media_blocks (configure_size_limits fsi total) =
    Z.max (free_media_blocks fsi) (2 * est + 1024 * 1024 / bs) /\
  image_size_limit (configure_size_limits fsi total) = 0 /\
  (forall totals : list Z,
     nondecreasing (map free_media_blocks (fsi :: configure_all fsi totals))).
Proof.
  intros Hbs. cbv zeta.
  set (bs := fsi_block_size fsi) in *.
  split; [|split; [|split]].
  - pose proof (Z.div_mod (total + bs - 1) bs ltac:(lia)) as Hdm.
    pose proof (Z.mod_pos_bound (total + bs - 1) bs Hbs) as Hb.
    nia.
  - simpl. unfold fsi_block_size in bs |- *. simpl. subst bs.
    f_equal. lia.
  - reflexivity.
  - intros ts. apply configure_all_nondecreasing.
Qed.

Lemma C7_witness :
  0 < fsi_block_size {| image_size_limit := 0; block_size_attr := 2048;
                        free_media_blocks := 0 |} /\
  free_media_blocks (configure_size_limits
    {| image_size_limit := 0; block_size_attr := 2048;
       free_media_blocks := 0 |} 4097) = 518.
Proof.
  split; [vm_compute; reflexivity|].
  pose proof (C7_size_limits {| image_size_limit := 0; block_size_attr := 2048;
                                free_media_blocks := 0 |} 4097) as H.
  destruct H as [_ [H _]]; [vm_compute; reflexivity|].
  rewrite H. vm_compute. reflexivity.
Defined.

(* ------------------------------------------------------------------ *)
(** ** Rate estimator *)

(** C6: an observation whose status does not name the write phase clears
    the sample window and publishes exactly (0.0, None), whatever the
    state; every non-transfer status of the event sink (idle, validating,
    formatting, finalizing, verifying) and "Finalizing" is such a status;
    and in the scenario the first two observations give non-zero speeds and
    the third exactly (0.0, None). *)
Theorem C6_non_transfer_phase_resets :
  (forall cfg st percent s now,
     is_writing (Some s) = false ->
     emit_progress_info cfg st percent (Some s) now =
       ({| speed_history := []; last_progress := last_progress st;
           last_time := last_time st |}, (0%Q, None))) /\
  (forall a, In a [0; 1; 2; 6; 8] -> is_writing (Some (action_status a)) = false) /\
  is_writing (Some "Finalizing") = false /\
  match fst (run_observations scenario_config scenario_start
               scenario_observations) with
  | [o1; o2; o3] => ~ (fst o1 == 0)%Q /\ ~ (fst o2 == 0)%Q /\ o3 = (0%Q, None)
  | _ => False
  end.
Proof.
  split; [|split; [|split]].
  - intros cfg st percent s now H. unfold emit_progress_info. rewrite H.
    reflexivity.
  - intros a Ha. repeat destruct Ha as [<-|Ha]; try reflexivity.
    destruct Ha.
  - reflexivity.
  - vm_compute. split; [|split]; [discriminate|discriminate|reflexivity].
Qed.

(* ------------------------------------------------------------------ *)
(** ** Staging helpers *)

Ltac mrun := repeat progress (
  cbn [copy_chunks copy_file_chunked copy_node copy_entries makedirs] in *;
  unfold bindM, mbind, M_bind, mret, M_ret, stop_checkpoint,
    read_stop, flag_at, get_staging, put_staging, emit, raise in *;
  simpl in *).

Lemma copy_chunks_spec (dst : list string) (data : list nat) :
  forall s d0, staging s !! dst = Some (EFile d0) ->
  exists s', copy_chunks None dst data s = (inr tt, s') /\
    staging s' = <[dst := EFile (d0 ++ data)]> (staging s).
Proof.
  induction data as [|c data IH]; intros s d0 H.
  - eexists. mrun. split; [reflexivity|]. simpl.
    rewrite app_nil_r. rewrite insert_id; auto.
  - mrun. rewrite H.
    edestruct (IH {| reads := S (reads s); staging := <[dst:=EFile (d0 ++ [c])]> (staging s);
        trace := (trace s ++ [EStopRead false]) |} (d0 ++ [c])) as [s' [H1 H2]].
    { simpl. apply lookup_insert_eq. }
    exists s'. split. 
    + exact H1.
    + rewrite H2. simpl. rewrite insert_insert_eq, <- app_assoc. reflexivity.
Qed.

Lemma copy_file_spec (data : list nat) (dst : list string) (s : wstate) :
  exists s', copy_file_chunked None data dst s = (inr tt, s') /\
    staging s' = <[dst := EFile data]> (staging s).
Proof.
  unfold copy_file_chunked. mrun.
  edestruct (copy_chunks_spec dst data
    {| reads := reads s; staging := <[dst:=EFile []]> (staging s);
       trace := trace s ++ [ECopyFile dst] |} []) as [s' [H1 H2]].
  { simpl. apply lookup_insert_eq. }
  exists s'. split; [exact H1|]. rewrite H2. simpl.
  rewrite insert_insert_eq. reflexivity.
Qed.

Lemma makedirs_spec (dst : list string) (s : wstate) :
  staging s !! dst = None ->
  makedirs dst s =
    (inr tt, {| reads := reads s; staging := <[dst := EDir]> (staging s);
                trace := trace s |}).
Proof. intros H. unfold makedirs. mrun. rewrite H. reflexivity. Qed.

Lemma src_node_ind' (P : src_node -> Prop) :
  (forall d, P (SFile d)) ->
  (forall cs, Forall (fun nc => P nc.2) cs -> P (SDir cs)) ->
  forall n, P n.
Proof.
  intros Hf Hd.
  refine (fix F n := match n with
                     | SFile d => Hf d
                     | SDir cs => Hd cs ((fix G (cs : list (string * src_node))
                           : Forall (fun nc => P nc.2) cs :=
                         match cs with
                         | [] => List.Forall_nil _
                         | (nm, c) :: r => @List.Forall_cons _ _ (nm, c) r (F c) (G r)
                         end) cs)
                     end).
Qed.

Lemma prefix_snoc_same (dst : list string) (a b : string) (k : list string) :
  (dst ++ [a]) `prefix_of` k -> (dst ++ [b]) `prefix_of` k -> a = b.
Proof.
  intros [r1 ->] [r2 H]. rewrite <- !app_assoc in H. simpl in H.
  apply app_inv_head in H. congruence.
Qed.

Lemma prefix_snoc_not_self (dst : list string) (a : string) :
  ~ (dst ++ [a]) `prefix_of` dst.
Proof.
  intros H. apply prefix_length in H. rewrite length_app in H. simpl in H. lia.
Qed.

Lemma prefix_snoc_under (dst : list string) (a : string) (k : list string) :
  (dst ++ [a]) `prefix_of` k -> dst `prefix_of` k.
Proof. apply prefix_app_l. Qed.

Lemma copy_entries_spec (dst : list string) (cs : list (string * src_node)) :
  Forall (fun nc => forall d s, fresh_under (staging s) d ->
            exists s', copy_node None nc.2 d s = (inr tt, s') /\
              forall k, ~ d `prefix_of` k -> staging s' !! k = staging s !! k) cs ->
  NoDup (map fst cs) ->
  forall s, (forall name, name ∈ map fst cs -> fresh_under (staging s) (dst ++ [name])) ->
  exists s', copy_entries None (copy_node None) dst cs s = (inr tt, s') /\
    forall k, (forall name, name ∈ map fst cs -> ignored name = false ->
                 ~ (dst ++ [name]) `prefix_of` k) ->
      staging s' !! k = staging s !! k.
Proof.
  induction cs as [|[nm c] r IH]; intros Hall Hnd s Hfresh.
  - exists s. split; reflexivity.
  - apply Forall_cons in Hall as [Hc Hr]. simpl in Hc.
    simpl in Hnd. apply NoDup_cons in Hnd as [Hnm Hnd].
    destruct (ignored nm) eqn:Eig.
    + destruct (IH Hr Hnd s) as [s' [Hrun Hframe]].
      { intros name Hin. apply Hfresh. simpl. set_solver. }
      exists s'. split.
      * simpl. rewrite Eig. exact Hrun.
      * intros k Hk. apply Hframe. intros name Hin. apply Hk. set_solver.
    + set (s1 := {| reads := S (reads s); staging := staging s;
                    trace := trace s ++ [EStopRead false] |}).
      destruct (Hc (dst ++ [nm]) s1) as [s2 [Hrun2 Hframe2]].
      { apply Hfresh. set_solver. }
      destruct (IH Hr Hnd s2) as [s3 [Hrun3 Hframe3]].
      { intros name Hin k Hk. rewrite Hframe2.
        - apply (Hfresh name); [set_solver|exact Hk].
        - intros Hk'. assert (name = nm) by (eapply prefix_snoc_same; eauto).
          subst. contradiction. }
      exists s3. split.
      * simpl. rewrite Eig. mrun. unfold s1 in Hrun2. rewrite Hrun2. exact Hrun3.
      * intros k Hk. rewrite Hframe3.
        -- apply Hframe2. apply Hk; [set_solver|exact Eig].
        -- intros name Hin. apply Hk. set_solver.
Qed.

Lemma fold_nodup (cs : list (string * src_node)) :
  NoDup (map (fun nc => fold_name nc.1) cs) -> NoDup (map fst cs).
Proof.
  intros H.
  replace (map (fun nc => fold_name nc.1) cs) with (map fold_name (map fst cs))
    in H by (rewrite map_map; reflexivity).
  exact (NoDup_fmap_1 fold_name _ H).
Qed.

Lemma copy_node_spec (n : src_node) :
  wf_node n = true ->
  forall dst s, fresh_under (staging s) dst ->
  exists s', copy_node None n dst s = (inr tt, s') /\
    (forall k, ~ dst `prefix_of` k -> staging s' !! k = staging s !! k) /\
    is_Some (staging s' !! dst) /\
    (forall name, ignored name = true -> fresh_under (staging s') (dst ++ [name])) /\
    (forall data, n = SFile data -> staging s' !! dst = Some (EFile data)).
Proof.
  induction n as [data|cs IH] using src_node_ind'; intros Hwf dst s Hfresh.
  - destruct (copy_file_spec data dst s) as [s' [Hrun Hst]].
    exists s'. split; [exact Hrun|]. rewrite Hst.
    split; [|split; [|split]].
    + intros k Hk. apply lookup_insert_ne. intros ->. apply Hk. reflexivity.
    + rewrite lookup_insert_eq. eauto.
    + intros name _ k Hk. rewrite lookup_insert_ne.
      * apply Hfresh. eapply prefix_snoc_under. exact Hk.
      * intros ->. eapply prefix_snoc_not_self. exact Hk.
    + intros d [= <-]. apply lookup_insert_eq.
  - simpl in Hwf. apply andb_prop in Hwf as [Hnd Hwfs].
    apply bool_decide_eq_true, fold_nodup in Hnd.
    assert (Hwfs' : Forall (fun nc => wf_node nc.2 = true) cs)
      by (apply List.Forall_forall; apply forallb_forall; exact Hwfs).
    clear Hwfs. rename Hwfs' into Hwfs.
    assert (Hdst : staging s !! dst = None) by (apply Hfresh; reflexivity).
    set (s1 := {| reads := reads s; staging := <[dst:=EDir]> (staging s);
                  trace := trace s |}).
    destruct (copy_entries_spec dst cs) with (s := s1) as [s' [Hrun Hframe]].
    { eapply Forall_impl; [apply Forall_and; split; [exact IH|exact Hwfs]|].
      intros [nm c] [Hp Hw] d s0 Hf. simpl in *.
      destruct (Hp Hw d s0 Hf) as [s0' [Hr [Hfr _]]]. eauto. }
    { exact Hnd. }
    { intros name _ k Hk. simpl. rewrite lookup_insert_ne.
      - apply Hfresh. eapply prefix_snoc_under. exact Hk.
      - intros ->. eapply prefix_snoc_not_self. exact Hk. }
    exists s'. split; [|split; [|split; [|split]]].
    + simpl. unfold mbind, M_bind. rewrite (makedirs_spec dst s Hdst).
      exact Hrun.
    + intros k Hk. rewrite Hframe.
      * simpl. apply lookup_insert_ne. intros ->. apply Hk. reflexivity.
      * intros name _ _ Hk'. apply Hk. eapply prefix_snoc_under. exact Hk'.
    + rewrite Hframe.
      * simpl. rewrite lookup_insert_eq. eauto.
      * intros name _ _ Hk'. eapply prefix_snoc_not_self. exact Hk'.
    + intros name Hig k Hk. rewrite Hframe.
      * simpl. rewrite lookup_insert_ne.
        -- apply Hfresh. eapply prefix_snoc_under. exact Hk.
        -- intros ->. eapply prefix_snoc_not_self. exact Hk.
      * intros name' _ Hig' Hk'.
        assert (name' = name) by (eapply prefix_snoc_same; eauto).
        subst. congruence.
    + intros d Hd. discriminate.
Qed.

Lemma exists_top_true (g : gmap (list string) entry) (x : string) :
  exists_top g x = true <->
  exists y rest v, fold_name y = fold_name x /\ g !! (y :: rest) = Some v.
Proof.
  unfold exists_top. rewrite existsb_exists. split.
  - intros [[k v] [Hin Hm]]. simpl in Hm.
    destruct k as [|y rest]; [discriminate|].
    apply String.eqb_eq in Hm.
    exists y, rest, v. split; [symmetry; exact Hm|].
    apply elem_of_map_to_list, list_elem_of_In. exact Hin.
  - intros [y [rest [v [Hy Hm]]]]. exists (y :: rest, v). split.
    + apply list_elem_of_In, elem_of_map_to_list. exact Hm.
    + simpl. rewrite Hy. apply String.eqb_refl.
Qed.

Lemma exists_top_false (g : gmap (list string) entry) (x : string) :
  exists_top g x = false <->
  forall y, fold_name y = fold_name x -> fresh_under g [y].
Proof.
  split.
  - intros H y Hy k [rest ->]. simpl.
    destruct (g !! (y :: rest)) as [v|] eqn:E; [|reflexivity].
    assert (exists_top g x = true) by (apply exists_top_true; eauto).
    congruence.
  - intros H. destruct (exists_top g x) eqn:E; [|reflexivity].
    apply exists_top_true in E as [y [rest [v [Hy Hv]]]].
    rewrite (H y Hy (y :: rest)) in Hv; [discriminate|]. exists rest. reflexivity.
Qed.

Lemma exists_top_false_fresh (g : gmap (list string) entry) (x : string) :
  exists_top g x = false -> fresh_under g [x].
Proof. intros H. exact (proj1 (exists_top_false g x) H x eq_refl). Qed.

Lemma fold_name_app (a b : string) :
  fold_name (String.append a b) = String.append (fold_name a) (fold_name b).
Proof. induction a as [|c a IH]; simpl; [reflexivity|]. rewrite IH. reflexivity. Qed.

Lemma fold_name_length (a : string) :
  String.length (fold_name a) = String.length a.
Proof. induction a as [|c a IH]; simpl; [reflexivity|]. rewrite IH. reflexivity. Qed.

Lemma fold_name_pretty_N_go (x : N) :
  forall s, fold_name s = s -> fold_name (pretty_N_go x s) = pretty_N_go x s.
Proof.
  induction (N.lt_wf_0 x) as [x _ IH]; intros s Hs.
  destruct (N.eq_dec x 0%N) as [->|Hx]; [rewrite pretty_N_go_0; exact Hs|].
  rewrite pretty_N_go_step by lia. apply IH; [apply N.div_lt; lia|].
  simpl. rewrite Hs. f_equal.
  unfold pretty_N_char. repeat case_match; reflexivity.
Qed.

Lemma fold_name_pretty (n : nat) : fold_name (pretty n) = pretty n.
Proof.
  unfold pretty, pretty_nat, pretty, pretty_N.
  case_decide; [reflexivity|]. apply fold_name_pretty_N_go. reflexivity.
Qed.

Lemma string_length_append (a b : string) :
  String.length (String.append a b) = (String.length a + String.length b)%nat.
Proof. induction a as [|c a IH]; simpl; [reflexivity|]. rewrite IH. reflexivity. Qed.

Lemma string_append_cancel (a b c : string) :
  String.append a b = String.append a c -> b = c.
Proof. induction a as [|x a IH]; simpl; [auto|]. intros [= H]. auto. Qed.

Lemma candidate_name_inj (name : string) (i j : nat) :
  candidate_name name i = candidate_name name j -> i = j.
Proof.
  unfold candidate_name, suffixed.
  destruct i as [|i], j as [|j]; intros H; try reflexivity.
  - apply (f_equal String.length) in H.
    rewrite !string_length_append in H. simpl in H. lia.
  - apply (f_equal String.length) in H.
    rewrite !string_length_append in H. simpl in H. lia.
  - apply string_append_cancel in H. simpl in H. injection H as H.
    exact (pretty_nat_inj _ _ H).
Qed.

Lemma candidate_fold_inj (name : string) (i j : nat) :
  fold_name (candidate_name name i) = fold_name (candidate_name name j) -> i = j.
Proof.
  unfold candidate_name, suffixed.
  destruct i as [|i], j as [|j]; intros H; try reflexivity;
    rewrite ?fold_name_app, ?fold_name_pretty in H.
  - apply (f_equal String.length) in H.
    rewrite !string_length_append in H. simpl in H. lia.
  - apply (f_equal String.length) in H.
    rewrite !string_length_append in H. simpl in H. lia.
  - apply string_append_cancel in H. simpl in H. injection H as H.
    exact (pretty_nat_inj _ _ H).
Qed.

Lemma unique_loop_spec (g : gmap (list string) entry) (name : string) :
  forall fuel m,
  (exists j, (j <= fuel)%nat /\ exists_top g (candidate_name name (m + j)) = false) ->
  exists j, (j <= fuel)%nat /\
    unique_loop g name fuel (S m) (candidate_name name m) =
      candidate_name name (m + j) /\
    exists_top g (candidate_name name (m + j)) = false /\
    forall i, (i < j)%nat -> exists_top g (candidate_name name (m + i)) = true.
Proof.
  induction fuel as [|fuel IH]; intros m [j [Hj Hfree]].
  - assert (j = 0%nat) by lia. subst j. rewrite Nat.add_0_r in *.
    exists 0%nat. rewrite Nat.add_0_r. simpl. rewrite Hfree.
    repeat split; auto. intros i Hi. lia.
  - destruct (exists_top g (candidate_name name m)) eqn:Em.
    + destruct j as [|j]; [rewrite Nat.add_0_r in Hfree; congruence|].
      destruct (IH (S m)) as [j' [Hj' [Hrun [Hfr Hmin]]]].
      { exists j. split; [lia|]. replace (S m + j)%nat with (m + S j)%nat by lia.
        exact Hfree. }
      exists (S j'). split; [lia|].
      simpl. rewrite Em. fold (candidate_name name (S m)).
      replace (m + S j')%nat with (S m + j')%nat by lia. rewrite Hrun.
      split; [reflexivity|]. split; [exact Hfr|].
      intros [|i] Hi; [rewrite Nat.add_0_r; exact Em|].
      replace (m + S i)%nat with (S m + i)%nat by lia. apply Hmin. lia.
    + exists 0%nat. rewrite Nat.add_0_r. simpl. rewrite Em.
      split; [lia|]. split; [reflexivity|]. split; [first [exact Em | reflexivity]|].
      intros i Hi. lia.
Qed.

Lemma NoDup_map_injective {A B} (f : A -> B) (l : list A) :
  (forall x y, f x = f y -> x = y) -> List.NoDup l -> List.NoDup (map f l).
Proof.
  intros Hf Hl. induction Hl as [|a l Ha Hl IH]; simpl; constructor; auto.
  intros Hin. apply in_map_iff in Hin as [b [Hb Hin]].
  apply Hf in Hb. subst b. contradiction.
Qed.

Lemma free_or_all_used (g : gmap (list string) entry) (name : string) (N : nat) :
  (exists j, (j <= N)%nat /\ exists_top g (candidate_name name j) = false) \/
  (forall j, (j <= N)%nat -> exists_top g (candidate_name name j) = true).
Proof.
  induction N as [|N IH].
  - destruct (exists_top g (candidate_name name 0)) eqn:E.
    + right. intros j Hj. assert (j = 0%nat) by lia. subst. exact E.
    + left. exists 0%nat. auto.
  - destruct IH as [[j [Hj Hf]]|Hall].
    + left. exists j. split; [lia|exact Hf].
    + destruct (exists_top g (candidate_name name (S N))) eqn:E.
      * right. intros j Hj. destruct (Nat.eq_dec j (S N)) as [->|Hne]; [exact E|].
        apply Hall. lia.
      * left. exists (S N). auto.
Qed.

Lemma some_candidate_free (g : gmap (list string) entry) (name : string) :
  exists j, (j <= size g)%nat /\ exists_top g (candidate_name name j) = false.
Proof.
  destruct (free_or_all_used g name (size g)) as [H|Hall]; [exact H|].
  exfalso.
  set (heads := map (fun kv : list string * entry => fold_name (hd "" kv.1))
                    (map_to_list g)).
  assert (Hnd : List.NoDup (map (fun j => fold_name (candidate_name name j))
                              (seq 0 (S (size g))))).
  { apply NoDup_map_injective; [apply candidate_fold_inj|apply seq_NoDup]. }
  assert (Hincl : incl (map (fun j => fold_name (candidate_name name j))
                          (seq 0 (S (size g)))) heads).
  { intros x Hx. apply in_map_iff in Hx as [j [<- Hj]].
    apply in_seq in Hj.
    destruct (proj1 (exists_top_true g (candidate_name name j)) (Hall j ltac:(lia)))
      as [y [rest [v [Hy Hv]]]].
    rewrite <- Hy.
    apply (in_map (fun kv : list string * entry => fold_name (hd "" kv.1))
             (map_to_list g) (y :: rest, v)).
    apply list_elem_of_In, elem_of_map_to_list. exact Hv. }
  pose proof (NoDup_incl_length Hnd Hincl) as Hlen.
  unfold heads in Hlen. rewrite !length_map, length_seq, length_map_to_list in Hlen.
  lia.
Qed.

Lemma unique_name_first_free (g : gmap (list string) entry) (name : string) :
  exists N, (N <= size g)%nat /\
    unique_name g name = candidate_name name N /\
    exists_top g (candidate_name name N) = false /\
    forall i, (i < N)%nat -> exists_top g (candidate_name name i) = true.
Proof.
  destruct (some_candidate_free g name) as [j [Hj Hf]].
  destruct (unique_loop_spec g name (size g) 0) as [N [HN [Hrun [Hfr Hmin]]]].
  { exists j. split; [exact Hj|exact Hf]. }
  exists N. split; [exact HN|]. split; [exact Hrun|]. split; [exact Hfr|].
  exact Hmin.
Qed.

Lemma safe_copy_spec (p : string) (n : src_node) (s : wstate) :
  is_excluded (base_name_of p) = false -> wf_node n = true ->
  let d := unique_name (staging s) (base_name_of p) in
  exists s', safe_copy_into_staging None p n s = (inr tt, s') /\
    exists_top (staging s) d = false /\
    (forall k, ~ [d] `prefix_of` k -> staging s' !! k = staging s !! k) /\
    is_Some (staging s' !! [d]) /\
    (forall name, ignored name = true -> fresh_under (staging s') [d; name]) /\
    (forall data, n = SFile data -> staging s' !! [d] = Some (EFile data)).
Proof.
  intros Hex Hwf d.
  assert (Hfree : exists_top (staging s) d = false).
  { destruct (unique_name_first_free (staging s) (base_name_of p))
      as [N [_ [Hd [Hf _]]]].
    unfold d. rewrite Hd. exact Hf. }
  destruct (copy_node_spec n Hwf [d] s) as [s' [Hrun [Hfr [Hsome [Hig Hfile]]]]].
  { apply exists_top_false_fresh. exact Hfree. }
  exists s'. split; [|split; [exact Hfree|split; [exact Hfr|split; [exact Hsome|
    split; [exact Hig|exact Hfile]]]]].
  unfold safe_copy_into_staging. rewrite Hex.
  destruct n as [data|cs]; unfold bindM, mbind, M_bind, get_staging; simpl.
  - exact Hrun.
  - exact Hrun.
Qed.

Lemma exists_top_frame (g g' : gmap (list string) entry) (d x : string) :
  (forall k, ~ [d] `prefix_of` k -> g' !! k = g !! k) ->
  fold_name x <> fold_name d ->
  exists_top g' x = exists_top g x.
Proof.
  intros Hfr Hne.
  assert (Hk : forall y rest, fold_name y = fold_name x ->
                 g' !! (y :: rest) = g !! (y :: rest)).
  { intros y rest Hy. apply Hfr. intros [r Hr]. simpl in Hr.
    injection Hr as Hr _. subst y. congruence. }
  destruct (exists_top g x) eqn:E.
  - apply exists_top_true in E as [y [rest [v [Hy Hv]]]].
    apply exists_top_true. exists y, rest, v. rewrite Hk by exact Hy. auto.
  - destruct (exists_top g' x) eqn:E'; [|reflexivity].
    apply exists_top_true in E' as [y [rest [v [Hy Hv]]]].
    rewrite Hk in Hv by exact Hy.
    assert (exists_top g x = true) by (apply exists_top_true; eauto).
    congruence.
Qed.

Lemma exists_top_some (g : gmap (list string) entry) (d : string) :
  is_Some (g !! [d]) -> exists_top g d = true.
Proof. intros [v Hv]. apply exists_top_true. exists d, [], v. auto. Qed.

Lemma fresh_preserved (g g' : gmap (list string) entry) (d : string) :
  fresh_under g [d] ->
  (forall k, ~ [d] `prefix_of` k -> g' !! k = g !! k) ->
  forall k v, g !! k = Some v -> g' !! k = Some v.
Proof.
  intros Hf Hfr k v Hv. rewrite Hfr; [exact Hv|].
  intros Hp. rewrite (Hf k Hp) in Hv. discriminate.
Qed.

(* ------------------------------------------------------------------ *)
(** ** Staged copies *)

Lemma tree_lookup_dir (cs : list (string * src_node)) (name : string)
    (rest : list string) :
  tree_lookup (SDir cs) (name :: rest) =
  if ignored name then None
  else match find_child cs name with
       | Some c => tree_lookup c rest
       | None => None
       end.
Proof.
  simpl. destruct (ignored name); [reflexivity|].
  induction cs as [|[nm c] r IH]; simpl; [reflexivity|].
  destruct (String.eqb nm name); [reflexivity|exact IH].
Qed.

Lemma find_child_in (cs : list (string * src_node)) (nm : string) (c : src_node) :
  NoDup (map fst cs) -> In (nm, c) cs -> find_child cs nm = Some c.
Proof.
  induction cs as [|[nm' c'] r IH]; simpl; [tauto|]. intros Hnd Hin.
  apply NoDup_cons in Hnd as [Hnm Hnd].
  destruct (String.eqb_spec nm' nm) as [->|Hne].
  - destruct Hin as [[= ->]|Hin]; [reflexivity|].
    exfalso. apply Hnm. apply list_elem_of_In, in_map_iff. exists (nm, c). auto.
  - destruct Hin as [[= -> ->]|Hin]; [congruence|]. apply IH; assumption.
Qed.

Lemma find_child_some (cs : list (string * src_node)) (nm : string) (c : src_node) :
  find_child cs nm = Some c -> In (nm, c) cs.
Proof.
  induction cs as [|[nm' c'] r IH]; simpl; [discriminate|].
  destruct (String.eqb_spec nm' nm) as [->|Hne]; [intros [= ->]; auto|].
  intros H. right. apply IH, H.
Qed.

Lemma copy_entries_exact (dst : list string) (cs : list (string * src_node)) :
  Forall (fun nc => forall d s, fresh_under (staging s) d ->
            exists s', copy_node None nc.2 d s = (inr tt, s') /\
              (forall k, staging s' !! (d ++ k) = tree_lookup nc.2 k) /\
              (forall k, ~ d `prefix_of` k -> staging s' !! k = staging s !! k)) cs ->
  NoDup (map fst cs) ->
  forall s, (forall name, name ∈ map fst cs -> fresh_under (staging s) (dst ++ [name])) ->
  exists s', copy_entries None (copy_node None) dst cs s = (inr tt, s') /\
    (forall nm c k, In (nm, c) cs -> ignored nm = false ->
       staging s' !! (dst ++ nm :: k) = tree_lookup c k) /\
    (forall k, (forall name, name ∈ map fst cs -> ignored name = false ->
                 ~ (dst ++ [name]) `prefix_of` k) ->
      staging s' !! k = staging s !! k).
Proof.
  induction cs as [|[nm c] r IH]; intros Hall Hnd s Hfresh.
  - exists s. split; [reflexivity|]. split; [intros ? ? ? []|reflexivity].
  - apply Forall_cons in Hall as [Hc Hr]. simpl in Hc.
    simpl in Hnd. apply NoDup_cons in Hnd as [Hnm Hnd].
    assert (Hnm' : forall c', ~ In (nm, c') r).
    { intros c' Hin. apply Hnm. apply list_elem_of_In, in_map_iff.
      exists (nm, c'). auto. }
    destruct (ignored nm) eqn:Eig.
    + destruct (IH Hr Hnd s) as [s' [Hrun [Hin Hframe]]].
      { intros name Hn. apply Hfresh. simpl. set_solver. }
      exists s'. split; [simpl; rewrite Eig; exact Hrun|]. split.
      * intros nm' c' k [[= <- <-]|H] Hig; [congruence|]. apply Hin; assumption.
      * intros k Hk. apply Hframe. intros name Hn. apply Hk. set_solver.
    + set (s1 := {| reads := S (reads s); staging := staging s;
                    trace := trace s ++ [EStopRead false] |}).
      destruct (Hc (dst ++ [nm]) s1) as [s2 [Hrun2 [Hin2 Hframe2]]].
      { apply Hfresh. set_solver. }
      destruct (IH Hr Hnd s2) as [s3 [Hrun3 [Hin3 Hframe3]]].
      { intros name Hn k Hk. rewrite Hframe2.
        - apply (Hfresh name); [set_solver|exact Hk].
        - intros Hk'. assert (name = nm) by (eapply prefix_snoc_same; eauto).
          subst. contradiction. }
      exists s3. split; [|split].
      * simpl. rewrite Eig. mrun. unfold s1 in Hrun2. rewrite Hrun2. exact Hrun3.
      * intros nm' c' k [[= <- <-]|H] Hig.
        -- rewrite Hframe3.
           ++ rewrite <- (Hin2 k), <- app_assoc. reflexivity.
           ++ intros name Hn _ Hk. apply Hnm.
              assert (name = nm).
              { eapply prefix_snoc_same; [exact Hk|]. exists k.
                rewrite <- app_assoc. reflexivity. }
              subst. exact Hn.
        -- apply Hin3; assumption.
      * intros k Hk. rewrite Hframe3.
        -- apply Hframe2. apply Hk; [set_solver|exact Eig].
        -- intros name Hn. apply Hk. set_solver.
Qed.

Lemma copy_node_exact (n : src_node) :
  wf_node n = true ->
  forall dst s, fresh_under (staging s) dst ->
  exists s', copy_node None n dst s = (inr tt, s') /\
    (forall k, staging s' !! (dst ++ k) = tree_lookup n k) /\
    (forall k, ~ dst `prefix_of` k -> staging s' !! k = staging s !! k).
Proof.
  induction n as [data|cs IH] using src_node_ind'; intros Hwf dst s Hfresh.
  - destruct (copy_file_spec data dst s) as [s' [Hrun Hst]].
    exists s'. split; [exact Hrun|]. rewrite Hst. split.
    + intros [|x r].
      * rewrite app_nil_r, lookup_insert_eq. reflexivity.
      * rewrite lookup_insert_ne.
        -- apply Hfresh. exists (x :: r). reflexivity.
        -- intros H. apply (f_equal length) in H. rewrite length_app in H.
           simpl in H. lia.
    + intros k Hk. apply lookup_insert_ne. intros ->. apply Hk. reflexivity.
  - simpl in Hwf. apply andb_prop in Hwf as [Hnd Hwfs].
    apply bool_decide_eq_true, fold_nodup in Hnd.
    assert (Hwfs' : Forall (fun nc => wf_node nc.2 = true) cs)
      by (apply List.Forall_forall; apply forallb_forall; exact Hwfs).
    clear Hwfs. rename Hwfs' into Hwfs.
    assert (Hdst : staging s !! dst = None) by (apply Hfresh; reflexivity).
    set (s1 := {| reads := reads s; staging := <[dst:=EDir]> (staging s);
                  trace := trace s |}).
    destruct (copy_entries_exact dst cs) with (s := s1) as [s' [Hrun [Hin Hframe]]].
    { eapply Forall_impl; [apply Forall_and; split; [exact IH|exact Hwfs]|].
      intros [nm c] [Hp Hw] d s0 Hf. simpl in *. exact (Hp Hw d s0 Hf). }
    { exact Hnd. }
    { intros name _ k Hk. simpl. rewrite lookup_insert_ne.
      - apply Hfresh. eapply prefix_snoc_under. exact Hk.
      - intros ->. eapply prefix_snoc_not_self. exact Hk. }
    assert (Hout : forall k, (forall name, name ∈ map fst cs -> ignored name = false ->
                     ~ (dst ++ [name]) `prefix_of` k) ->
                   k <> dst -> dst `prefix_of` k -> staging s' !! k = None).
    { intros k Hk Hne Hp. rewrite Hframe by exact Hk. simpl.
      rewrite lookup_insert_ne by congruence. apply Hfresh, Hp. }
    exists s'. split; [|split].
    + simpl. unfold mbind, M_bind. rewrite (makedirs_spec dst s Hdst).
      exact Hrun.
    + intros [|name rest].
      * rewrite app_nil_r, Hframe.
        -- simpl. rewrite lookup_insert_eq. reflexivity.
        -- intros name _ _ Hk'. eapply prefix_snoc_not_self. exact Hk'.
      * rewrite tree_lookup_dir.
        destruct (ignored name) eqn:Eig.
        -- apply Hout.
           ++ intros name' Hn Hig' Hk'. assert (name' = name).
              { eapply prefix_snoc_same; [exact Hk'|]. exists rest.
                rewrite <- app_assoc. reflexivity. }
              subst. congruence.
           ++ intros H. apply (f_equal length) in H. rewrite length_app in H.
              simpl in H. lia.
           ++ exists (name :: rest). reflexivity.
        -- destruct (find_child cs name) as [c|] eqn:Ef.
           ++ apply Hin; [apply find_child_some, Ef|exact Eig].
           ++ apply Hout.
              ** intros name' Hn Hig' Hk'. assert (name' = name).
                 { eapply prefix_snoc_same; [exact Hk'|]. exists rest.
                   rewrite <- app_assoc. reflexivity. }
                 subst. apply list_elem_of_In, in_map_iff in Hn as [[nm c] [Hnm Hc]].
                 simpl in Hnm. subst nm.
                 rewrite (find_child_in cs name c Hnd Hc) in Ef. discriminate.
              ** intros H. apply (f_equal length) in H. rewrite length_app in H.
                 simpl in H. lia.
              ** exists (name :: rest). reflexivity.
    + intros k Hk. rewrite Hframe.
      * simpl. apply lookup_insert_ne. intros ->. apply Hk. reflexivity.
      * intros name _ _ Hk'. apply Hk. eapply prefix_snoc_under. exact Hk'.
Qed.

Lemma tree_lookup_ignored (n : src_node) (k1 : list string) (name : string)
    (k2 : list string) :
  ignored name = true -> tree_lookup n (k1 ++ name :: k2) = None.
Proof.
  intros Hig. revert n. induction k1 as [|x k1 IH]; intros [data|cs]; simpl app.
  - reflexivity.
  - rewrite tree_lookup_dir, Hig. reflexivity.
  - reflexivity.
  - rewrite tree_lookup_dir. destruct (ignored x); [reflexivity|].
    destruct (find_child cs x); [apply IH|reflexivity].
Qed.

Lemma safe_copy_exact (p : string) (n : src_node) (s : wstate) :
  is_excluded (base_name_of p) = false -> wf_node n = true ->
  let d := unique_name (staging s) (base_name_of p) in
  exists s', safe_copy_into_staging None p n s = (inr tt, s') /\
    exists_top (staging s) d = false /\
    (forall k, staging s' !! (d :: k) = tree_lookup n k) /\
    (forall d' k, d' <> d -> staging s' !! (d' :: k) = staging s !! (d' :: k)).
Proof.
  intros Hex Hwf d.
  assert (Hfree : exists_top (staging s) d = false).
  { destruct (unique_name_first_free (staging s) (base_name_of p))
      as [N [_ [Hd [Hf _]]]].
    unfold d. rewrite Hd. exact Hf. }
  destruct (copy_node_exact n Hwf [d] s) as [s' [Hrun [Hin Hfr]]].
  { apply exists_top_false_fresh. exact Hfree. }
  exists s'. split; [|split; [exact Hfree|split]].
  - unfold safe_copy_into_staging. rewrite Hex.
    destruct n as [data|cs]; unfold bindM, mbind, M_bind, get_staging; simpl;
      exact Hrun.
  - intros k. exact (Hin k).
  - intros d' k Hne. apply Hfr. intros [r Hr]. simpl in Hr. congruence.
Qed.

(* ------------------------------------------------------------------ *)
(** ** Collision-safe staging names *)




(* ------------------------------------------------------------------ *)
(** ** Exclusion set *)




(* ------------------------------------------------------------------ *)
(** ** Cancellation *)

(** C8: with the flag set from its fourth read on, while the second of
    three files is being staged, both jobs copy only the first file, stop at
    the next checkpoint and emit the single terminal event
    [done(False, "Stopped by user")]. The burn job's handler reports it as
    "Stopped" with no dialog; the image-creation job's handler reports the
    same event as "Failed" with the error dialog "ISO creation failed.". *)
Theorem C8_iso_stop_reported_as_failure :
  let burn := burn_job (Some 3%nat) c8_sources 5 in
  let iso := iso_job (Some 3%nat) c8_sources 5 in
  copied_after_stop (fst burn) = [] /\
  copied_after_stop (fst iso) = [] /\
  copied_files (fst burn) = [["a.txt"]] /\
  copied_files (fst iso) = [["a.txt"]] /\
  done_events (fst burn) = [(false, stopped_msg)] /\
  done_events (fst iso) = [(false, stopped_msg)] /\
  snd burn = Some {| ui_status := "Stopped"; error_dialog := None |} /\
  snd iso = Some {| ui_status := "Failed";
                    error_dialog := Some "ISO creation failed." |}.
Proof. vm_compute. repeat split. Qed.

(* ------------------------------------------------------------------ *)
(** ** Volume labels *)

Lemma no_adj_cons (p : Z -> bool) (c : Z) (s : pystr) :
  no_adj p (c :: s) =
  match s with c' :: _ => negb (p c && p c') | [] => true end && no_adj p s.
Proof. destruct s; reflexivity. Qed.

Lemma no_adj_tail (p : Z -> bool) (c : Z) (s : pystr) :
  no_adj p (c :: s) = true -> no_adj p s = true.
Proof. rewrite no_adj_cons. intros H. apply andb_prop in H. tauto. Qed.

Lemma forallb_weaken (p q : Z -> bool) (s : pystr) :
  (forall c, p c = true -> q c = true) ->
  forallb p s = true -> forallb q s = true.
Proof.
  intros Hpq. induction s as [|c r IH]; simpl; [auto|].
  intros H. apply andb_prop in H as [Hc Hr]. rewrite (Hpq c Hc), (IH Hr).
  reflexivity.
Qed.

Lemma no_adj_weaken (p q : Z -> bool) (s : pystr) :
  forallb (fun c => negb (q c) || p c) s = true ->
  no_adj p s = true -> no_adj q s = true.
Proof.
  induction s as [|c r IH]; [auto|].
  simpl forallb. intros Ha Hn. apply andb_prop in Ha as [Hc Hr].
  rewrite no_adj_cons in Hn |- *. apply andb_prop in Hn as [Hh Hn].
  rewrite (IH Hr Hn), andb_true_r.
  destruct r as [|c' r']; [reflexivity|].
  simpl in Hr. apply andb_prop in Hr as [Hc' _].
  destruct (q c), (q c'), (p c), (p c'); simpl in *; congruence.
Qed.

Lemma no_adj_none (q : Z -> bool) (s : pystr) :
  forallb (fun c => negb (q c)) s = true -> no_adj q s = true.
Proof.
  intros H. apply (no_adj_weaken (fun _ => false)).
  - eapply forallb_weaken; [|exact H]. intros c Hc. rewrite Hc. reflexivity.
  - induction s as [|c r IH]; [reflexivity|].
    rewrite no_adj_cons. simpl in H. apply andb_prop in H as [_ H].
    rewrite (IH H). destruct r; reflexivity.
Qed.

(** lstrip *)

Lemma forallb_lstrip (p q : Z -> bool) (s : pystr) :
  forallb q s = true -> forallb q (lstrip_cp p s) = true.
Proof.
  induction s as [|c r IH]; simpl; [auto|].
  intros H. destruct (p c); [|exact H].
  apply IH. apply andb_prop in H. tauto.
Qed.

Lemma no_adj_lstrip (p q : Z -> bool) (s : pystr) :
  no_adj q s = true -> no_adj q (lstrip_cp p s) = true.
Proof.
  induction s as [|c r IH]; simpl; [auto|].
  intros H. destruct (p c); [|exact H].
  apply IH. exact (no_adj_tail _ _ _ H).
Qed.

Lemma head_not_lstrip (p : Z -> bool) (s : pystr) :
  head_not_cp p (lstrip_cp p s) = true.
Proof.
  induction s as [|c r IH]; simpl; [reflexivity|].
  destruct (p c) eqn:E; [exact IH|simpl; rewrite E; reflexivity].
Qed.

Lemma lstrip_cp_id (p : Z -> bool) (s : pystr) :
  head_not_cp p s = true -> lstrip_cp p s = s.
Proof.
  destruct s as [|c r]; simpl; [reflexivity|].
  intros H. destruct (p c); [discriminate|reflexivity].
Qed.

Lemma lstrip_cp_all (p : Z -> bool) (s : pystr) :
  forallb p s = true -> lstrip_cp p s = [].
Proof.
  induction s as [|c r IH]; simpl; [reflexivity|].
  intros H. apply andb_prop in H as [Hc Hr]. rewrite Hc. apply IH, Hr.
Qed.

(** prefixes [firstn n] *)

Lemma forallb_firstn (q : Z -> bool) (n : nat) (s : pystr) :
  forallb q s = true -> forallb q (firstn n s) = true.
Proof.
  revert n. induction s as [|c r IH]; intros [|n]; simpl; auto.
  intros H. apply andb_prop in H as [Hc Hr]. rewrite Hc, (IH n Hr).
  reflexivity.
Qed.

Lemma no_adj_firstn (q : Z -> bool) (n : nat) (s : pystr) :
  no_adj q s = true -> no_adj q (firstn n s) = true.
Proof.
  revert n. induction s as [|c r IH]; intros [|n] H; try reflexivity.
  change (firstn (S n) (c :: r)) with (c :: firstn n r).
  rewrite no_adj_cons in H |- *. apply andb_prop in H as [Hh Hr].
  rewrite (IH n Hr), andb_true_r.
  destruct n as [|n]; [reflexivity|].
  destruct r as [|c' r']; [reflexivity|]. exact Hh.
Qed.

Lemma head_not_firstn (q : Z -> bool) (n : nat) (s : pystr) :
  head_not_cp q s = true -> head_not_cp q (firstn n s) = true.
Proof. destruct s, n; simpl; auto. Qed.

(** rstrip *)

Lemma rstrip_cp_prefix (p : Z -> bool) (s : pystr) :
  rstrip_cp p s = firstn (length (rstrip_cp p s)) s.
Proof.
  induction s as [|c r IH]; simpl; [reflexivity|].
  destruct (rstrip_cp p r) as [|a b] eqn:E.
  - destruct (p c); reflexivity.
  - simpl. f_equal. exact IH.
Qed.

Lemma forallb_rstrip (p q : Z -> bool) (s : pystr) :
  forallb q s = true -> forallb q (rstrip_cp p s) = true.
Proof. intros H. rewrite rstrip_cp_prefix. apply forallb_firstn, H. Qed.

Lemma no_adj_rstrip (p q : Z -> bool) (s : pystr) :
  no_adj q s = true -> no_adj q (rstrip_cp p s) = true.
Proof. intros H. rewrite rstrip_cp_prefix. apply no_adj_firstn, H. Qed.

Lemma head_not_rstrip (p q : Z -> bool) (s : pystr) :
  head_not_cp q s = true -> head_not_cp q (rstrip_cp p s) = true.
Proof. intros H. rewrite rstrip_cp_prefix. apply head_not_firstn, H. Qed.

Lemma length_rstrip_cp_le (p : Z -> bool) (s : pystr) :
  (length (rstrip_cp p s) <= length s)%nat.
Proof. rewrite rstrip_cp_prefix, length_firstn. lia. Qed.

Lemma rstrip_cp_id (p : Z -> bool) (s : pystr) :
  forallb (fun c => negb (p c)) s = true -> rstrip_cp p s = s.
Proof.
  induction s as [|c r IH]; simpl; [reflexivity|].
  intros H. apply andb_prop in H as [Hc Hr]. rewrite (IH Hr).
  destruct r; [|reflexivity]. destruct (p c); [discriminate|reflexivity].
Qed.

Lemma rstrip_cp_cons (p : Z -> bool) (c : Z) (r : pystr) :
  rstrip_cp p (c :: r) =
  match rstrip_cp p r with
  | [] => if p c then [] else [c]
  | r' => c :: r'
  end.
Proof. reflexivity. Qed.

Lemma rstrip_rstrip (p q : Z -> bool) (s : pystr) :
  (forall c, q c = true -> p c = true) ->
  rstrip_cp q (rstrip_cp p s) = rstrip_cp p s.
Proof.
  intros Hqp. induction s as [|c r IH]; simpl; [reflexivity|].
  destruct (rstrip_cp p r) as [|a b] eqn:E.
  - destruct (p c) eqn:Pc; simpl; [reflexivity|].
    destruct (q c) eqn:Qc; [rewrite (Hqp c Qc) in Pc; discriminate|reflexivity].
  - rewrite rstrip_cp_cons, IH. reflexivity.
Qed.

(** collapse_runs *)

Lemma collapse_true_head (p : Z -> bool) (r : Z) (s : pystr) :
  head_not_cp p (collapse_runs p r true s) = true.
Proof.
  induction s as [|c rest IH]; simpl; [reflexivity|].
  destruct (p c) eqn:E; [exact IH|simpl; rewrite E; reflexivity].
Qed.

Lemma no_adj_head (p : Z -> bool) (c : Z) (s : pystr) :
  head_not_cp p s = true -> no_adj p s = true -> no_adj p (c :: s) = true.
Proof.
  intros Hh Hn. rewrite no_adj_cons, Hn, andb_true_r.
  destruct s as [|c' s']; [reflexivity|]. simpl in Hh.
  destruct (p c), (p c'); simpl in *; congruence.
Qed.

Lemma no_adj_collapse (p : Z -> bool) (r : Z) (prev : bool) (s : pystr) :
  no_adj p (collapse_runs p r prev s) = true.
Proof.
  revert prev. induction s as [|c rest IH]; intros prev; simpl; [reflexivity|].
  destruct (p c) eqn:E; [destruct prev; [apply IH|]|].
  - apply no_adj_head; [apply collapse_true_head|apply IH].
  - rewrite no_adj_cons, IH, andb_true_r.
    destruct (collapse_runs p r false rest) as [|c' s'] eqn:C; [reflexivity|].
    destruct rest as [|d rest']; simpl in C; [discriminate|].
    destruct (p d) eqn:Ed; injection C as <- _; [|rewrite E, Ed; reflexivity].
    rewrite E. reflexivity.
Qed.

Lemma forallb_collapse (p q : Z -> bool) (r : Z) (prev : bool) (s : pystr) :
  q r = true -> forallb q s = true ->
  forallb q (collapse_runs p r prev s) = true.
Proof.
  intros Hr. revert prev. induction s as [|c rest IH]; intros prev; simpl;
    [reflexivity|].
  intros H. apply andb_prop in H as [Hc Hrest].
  destruct (p c); [destruct prev|]; simpl; rewrite ?Hr, ?Hc; apply IH, Hrest.
Qed.

(** Collapsing runs of [p] keeps two [q]-characters apart when [p] and [q]
    are disjoint and the replacement is not a [q]-character. *)
Lemma no_adj_collapse_other_aux (p q : Z -> bool) (r : Z) :
  (forall c, q c = true -> p c = false) -> q r = false ->
  forall s prev a,
    no_adj q (a :: s) = true -> (prev = true -> q a = false) ->
    no_adj q (a :: collapse_runs p r prev s) = true.
Proof.
  intros Hdis Hr. induction s as [|c rest IH]; intros prev a H Hprev;
    cbn [collapse_runs]; [reflexivity|].
  assert (Hrest : no_adj q rest = true)
    by exact (no_adj_tail _ _ _ (no_adj_tail _ _ _ H)).
  destruct (p c) eqn:Pc; [destruct prev|].
  - apply IH; [|auto]. rewrite no_adj_cons, Hrest, andb_true_r.
    destruct rest; [reflexivity|]. rewrite (Hprev eq_refl). reflexivity.
  - rewrite no_adj_cons. apply andb_true_intro. split.
    + rewrite Hr, andb_false_r. reflexivity.
    + apply IH; [|auto]. rewrite no_adj_cons, Hrest, andb_true_r.
      destruct rest; [reflexivity|]. rewrite Hr. reflexivity.
  - rewrite no_adj_cons. apply andb_true_intro. split.
    + rewrite no_adj_cons in H. apply andb_prop in H. tauto.
    + apply IH; [exact (no_adj_tail _ _ _ H)|discriminate].
Qed.

Lemma no_adj_collapse_other (p q : Z -> bool) (r : Z) (s : pystr) :
  (forall c, q c = true -> p c = false) -> q r = false ->
  no_adj q s = true -> no_adj q (collapse_runs p r false s) = true.
Proof.
  intros Hdis Hr H. destruct s as [|c rest]; simpl; [reflexivity|].
  destruct (p c) eqn:Pc.
  - apply (no_adj_collapse_other_aux p q r Hdis Hr); [|auto].
    rewrite no_adj_cons, (no_adj_tail _ _ _ H), andb_true_r.
    destruct rest; [reflexivity|]. rewrite Hr. reflexivity.
  - apply (no_adj_collapse_other_aux p q r Hdis Hr); [exact H|discriminate].
Qed.

Lemma collapse_id (p : Z -> bool) (r : Z) (s : pystr) :
  forallb (fun c => negb (p c) || (c =? r)) s = true ->
  no_adj p s = true ->
  forall prev, (prev = true -> head_not_cp p s = true) ->
  collapse_runs p r prev s = s.
Proof.
  induction s as [|c rest IH]; intros Hc Hn prev Hprev; simpl; [reflexivity|].
  simpl in Hc. apply andb_prop in Hc as [Hc Hcs].
  destruct (p c) eqn:Pc.
  - destruct prev; [specialize (Hprev eq_refl); simpl in Hprev;
                    rewrite Pc in Hprev; discriminate|].
    simpl in Hc. apply Z.eqb_eq in Hc. subst r. f_equal.
    apply IH; [exact Hcs|exact (no_adj_tail _ _ _ Hn)|].
    intros _. rewrite no_adj_cons in Hn. apply andb_prop in Hn as [Hh _].
    destruct rest as [|d rest']; [reflexivity|]. simpl.
    rewrite Pc in Hh. simpl in Hh. rewrite Hh. reflexivity.
  - f_equal. apply IH; [exact Hcs|exact (no_adj_tail _ _ _ Hn)|discriminate].
Qed.

(** map *)

Lemma forallb_map_cp (f : Z -> Z) (q : Z -> bool) (s : pystr) :
  forallb (fun c => q (f c)) s = true -> forallb q (map f s) = true.
Proof.
  induction s as [|c r IH]; simpl; [auto|].
  intros H. apply andb_prop in H as [Hc Hr]. rewrite Hc, (IH Hr).
  reflexivity.
Qed.

Lemma no_adj_map (f : Z -> Z) (p q : Z -> bool) (s : pystr) :
  (forall c, q (f c) = true -> p c = true) ->
  no_adj p s = true -> no_adj q (map f s) = true.
Proof.
  intros Hf. induction s as [|c r IH]; cbn [map]; [auto|]. intros H.
  rewrite no_adj_cons in H |- *. apply andb_prop in H as [Hh Hr].
  rewrite (IH Hr), andb_true_r. destruct r as [|c' r']; [reflexivity|].
  simpl. destruct (q (f c)) eqn:E1, (q (f c')) eqn:E2; try reflexivity.
  rewrite (Hf c E1), (Hf c' E2) in Hh. discriminate.
Qed.

Lemma map_cp_id (f : Z -> Z) (s : pystr) :
  forallb (fun c => f c =? c) s = true -> map f s = s.
Proof.
  induction s as [|c r IH]; simpl; [reflexivity|].
  intros H. apply andb_prop in H as [Hc Hr]. apply Z.eqb_eq in Hc.
  rewrite Hc, (IH Hr). reflexivity.
Qed.

Lemma str_upper_id (upper_char : Z -> pystr) (q : Z -> bool) (s : pystr) :
  (forall c, q c = true -> upper_char c = [c]) ->
  forallb q s = true -> str_upper upper_char s = s.
Proof.
  intros Hu. unfold str_upper. induction s as [|c r IH]; simpl; [reflexivity|].
  intros H. apply andb_prop in H as [Hc Hr].
  rewrite (Hu c Hc), (IH Hr). reflexivity.
Qed.

(** Character facts *)

Lemma label_char_space (lo sp hy : bool) (c : Z) :
  is_label_char lo sp hy c = true -> is_space_cp c = true ->
  is_space_char c = true.
Proof.
  unfold is_label_char, is_space_cp, is_space_char.
  destruct lo, sp, hy; cbn [andb orb]; intros; zbool; lia.
Qed.

Lemma label_char_no_space (lo hy : bool) (c : Z) :
  is_label_char lo false hy c = true -> is_space_cp c = false.
Proof.
  unfold is_label_char, is_space_cp.
  destruct lo, hy; cbn [andb orb]; intros; zbool; lia.
Qed.

Lemma label_char_widen (sp hy : bool) (c : Z) :
  is_label_char false sp hy c = true -> is_label_char false true true c = true.
Proof.
  unfold is_label_char. destruct sp, hy; cbn [andb orb]; intros; zbool; lia.
Qed.

Lemma space_char_py_space (c : Z) :
  is_space_char c = true -> is_space_cp c = true.
Proof. unfold is_space_char, is_space_cp. intros; zbool; lia. Qed.

Lemma space_not_underscore (c : Z) :
  is_space_char c = true -> is_underscore c = false.
Proof. unfold is_space_char, is_underscore. intros; zbool; lia. Qed.

Lemma label_char_iso (c : Z) :
  is_label_char false false false c = true ->
  forall lo sp hy, is_label_char lo sp hy c = true.
Proof.
  intros H lo sp hy. revert H. unfold is_label_char.
  destruct lo, sp, hy; cbn [andb orb]; intros; zbool; lia.
Qed.

Lemma label_repl_allowed (lo sp hy : bool) (c : Z) :
  is_label_char lo sp hy (label_repl lo sp hy c) = true.
Proof.
  unfold label_repl. destruct (is_label_char lo sp hy c) eqn:E; [exact E|].
  destruct lo, sp, hy; reflexivity.
Qed.

Lemma label_repl_space (lo sp hy : bool) (c : Z) :
  is_space_char (label_repl lo sp hy c) = true -> is_space_cp c = true.
Proof.
  unfold label_repl. destruct (is_label_char lo sp hy c);
    [apply space_char_py_space|discriminate].
Qed.

Lemma py_slice_to_nonneg (s : pystr) (n : Z) :
  0 <= n -> py_slice_to s n = firstn (Z.to_nat n) s.
Proof. intros H. unfold py_slice_to. destruct (Z.leb_spec 0 n); [reflexivity|lia]. Qed.

Lemma py_slice_to_nil (n : Z) : py_slice_to [] n = [].
Proof. unfold py_slice_to. destruct (0 <=? n); apply firstn_nil. Qed.

Lemma sanitize_volume_label_default (upper_char : Z -> pystr) (label : pystr)
    (n : Z) (lo sp hy : bool) (d : pystr) :
  sanitize_volume_label upper_char label n lo sp hy (Some d) =
  let e := sanitize_volume_label upper_char label n lo sp hy None in
  match e with [] => py_slice_to d n | _ => e end.
Proof. reflexivity. Qed.

Lemma sanitize_none_clean (upper_char : Z -> pystr) (label : pystr) (n : Z)
    (lo sp hy : bool) :
  0 <= n ->
  clean_label lo sp hy (sanitize_volume_label upper_char label n lo sp hy None)
    = true /\
  (length (sanitize_volume_label upper_char label n lo sp hy None)
     <= Z.to_nat n)%nat.
Proof.
  intros Hn. unfold sanitize_volume_label. cbv zeta.
  rewrite py_slice_to_nonneg by exact Hn.
  set (u1 := if lo then strip_cp is_space_cp label
             else str_upper upper_char (strip_cp is_space_cp label)).
  set (u2 := if sp then collapse_runs is_space_cp 32 false u1 else u1).
  set (u3 := map (fun c => if is_label_char lo sp hy c then c else 95) u2).
  set (u4 := collapse_runs is_underscore 95 false u3).
  assert (A3 : forallb (is_label_char lo sp hy) u3 = true).
  { apply forallb_map_cp. induction u2 as [|c r IH]; [reflexivity|].
    simpl. rewrite IH, andb_true_r. apply (label_repl_allowed lo sp hy c). }
  assert (A4 : forallb (is_label_char lo sp hy) u4 = true).
  { apply forallb_collapse; [destruct lo, sp, hy; reflexivity|exact A3]. }
  assert (S4 : no_adj is_space_char u4 = true).
  { destruct sp.
    - apply no_adj_collapse_other; [exact space_not_underscore|reflexivity|].
      apply (no_adj_map _ is_space_cp); [exact (label_repl_space lo true hy)|].
      unfold u2. apply no_adj_collapse.
    - apply no_adj_none. eapply forallb_weaken; [|exact A4].
      intros c Hc. destruct (is_space_char c) eqn:E; [|reflexivity].
      pose proof (label_char_no_space lo hy c Hc).
      pose proof (space_char_py_space c E). congruence. }
  unfold clean_label, strip_cp. repeat rewrite andb_true_iff. repeat split.
  - apply forallb_firstn, forallb_rstrip, forallb_lstrip, A4.
  - apply no_adj_firstn, no_adj_rstrip, no_adj_lstrip, no_adj_collapse.
  - apply no_adj_firstn, no_adj_rstrip, no_adj_lstrip, S4.
  - apply head_not_firstn, head_not_rstrip, head_not_lstrip.
  - apply firstn_le_length.
Qed.

Lemma clean_label_head_ws (lo sp hy : bool) (s : pystr) :
  clean_label lo sp hy s = true -> head_not_cp is_space_cp s = true.
Proof.
  unfold clean_label. repeat rewrite andb_true_iff. intros [[[Ha _] _] Hh].
  destruct s as [|c r]; [reflexivity|]. simpl in Ha, Hh |- *.
  apply andb_prop in Ha as [Hc _].
  destruct (is_space_cp c) eqn:E; [|reflexivity].
  rewrite (label_char_space lo sp hy c Hc E) in Hh. discriminate.
Qed.

(** Sanitizing a clean label only drops its trailing whitespace. *)
Lemma sanitize_clean_fixed (upper_char : Z -> pystr) (s : pystr) (n : Z)
    (lo sp hy : bool) :
  upper_keeps_label upper_char ->
  0 <= n -> clean_label lo sp hy s = true ->
  (length s <= Z.to_nat n)%nat ->
  sanitize_volume_label upper_char s n lo sp hy None = rstrip_cp is_space_cp s.
Proof.
  intros Hup Hn Hc Hlen. pose proof (clean_label_head_ws _ _ _ _ Hc) as Hws.
  unfold clean_label in Hc. repeat rewrite andb_true_iff in Hc.
  destruct Hc as [[[Ha Hu] Hs] Hh].
  unfold sanitize_volume_label. cbv zeta.
  rewrite py_slice_to_nonneg by exact Hn.
  assert (E0 : strip_cp is_space_cp s = rstrip_cp is_space_cp s).
  { unfold strip_cp. rewrite lstrip_cp_id by exact Hws. reflexivity. }
  rewrite E0. set (t := rstrip_cp is_space_cp s).
  assert (Ta : forallb (is_label_char lo sp hy) t = true)
    by (apply forallb_rstrip, Ha).
  assert (Tu : no_adj is_underscore t = true) by (apply no_adj_rstrip, Hu).
  assert (Ts : no_adj is_space_char t = true) by (apply no_adj_rstrip, Hs).
  assert (Th : head_not_cp is_space_char t = true)
    by (apply head_not_rstrip, Hh).
  assert (U1 : (if lo then t else str_upper upper_char t) = t).
  { destruct lo; [reflexivity|].
    apply (str_upper_id _ (is_label_char false sp hy)); [|exact Ta].
    intros c Hc. apply Hup, (label_char_widen sp hy c Hc). }
  rewrite U1.
  assert (U2 : (if sp then collapse_runs is_space_cp 32 false t else t) = t).
  { destruct sp; [|reflexivity].
    assert (Hcl : forallb (fun c => negb (is_space_cp c) || (c =? 32)) t
                  = true).
    { eapply forallb_weaken; [|exact Ta]. intros c Hc.
      destruct (is_space_cp c) eqn:E; [|reflexivity].
      exact (label_char_space lo true hy c Hc E). }
    apply collapse_id; [exact Hcl| |discriminate].
    eapply no_adj_weaken; [|exact Ts]. exact Hcl. }
  rewrite U2.
  assert (U3 : map (fun c => if is_label_char lo sp hy c then c else 95) t = t).
  { apply map_cp_id. eapply forallb_weaken; [|exact Ta]. intros c Hc.
    rewrite Hc. apply Z.eqb_refl. }
  rewrite U3.
  assert (U4 : collapse_runs is_underscore 95 false t = t).
  { apply collapse_id; [|exact Tu|discriminate].
    clear. induction t as [|c r IH]; [reflexivity|]. simpl. rewrite IH.
    unfold is_underscore. destruct (c =? 95); reflexivity. }
  rewrite U4.
  unfold strip_cp. rewrite lstrip_cp_id by exact Th.
  unfold t. rewrite rstrip_rstrip by exact space_char_py_space.
  apply firstn_all2.
  pose proof (length_rstrip_cp_le is_space_cp s). lia.
Qed.

Lemma clean_label_firstn (lo sp hy : bool) (k : nat) (s : pystr) :
  clean_label lo sp hy s = true -> clean_label lo sp hy (firstn k s) = true.
Proof.
  unfold clean_label. repeat rewrite andb_true_iff.
  intros [[[Ha Hu] Hs] Hh]. repeat split.
  - apply forallb_firstn, Ha.
  - apply no_adj_firstn, Hu.
  - apply no_adj_firstn, Hs.
  - apply head_not_firstn, Hh.
Qed.

Lemma sanitize_clean (upper_char : Z -> pystr) (label : pystr) (n : Z)
    (lo sp hy : bool) (d : option pystr) :
  0 <= n ->
  match d with Some d' => clean_label lo sp hy d' | None => true end = true ->
  clean_label lo sp hy (sanitize_volume_label upper_char label n lo sp hy d)
    = true /\
  (length (sanitize_volume_label upper_char label n lo sp hy d)
     <= Z.to_nat n)%nat.
Proof.
  intros Hn Hd.
  destruct (sanitize_none_clean upper_char label n lo sp hy Hn) as [Hc Hl].
  destruct d as [d|]; [|split; assumption].
  rewrite sanitize_volume_label_default. cbv zeta.
  destruct (sanitize_volume_label upper_char label n lo sp hy None);
    [|split; assumption].
  rewrite py_slice_to_nonneg by exact Hn. split.
  - apply clean_label_firstn, Hd.
  - apply firstn_le_length.
Qed.

Lemma normalize_volume_text_eq (upper_char : Z -> pystr) (fs_mask : Z)
    (orig : pystr) :
  normalize_volume_text upper_char fs_mask orig =
  let rules := label_rules_for_mask fs_mask in
  sanitize_volume_label upper_char orig (lr_max_len rules) (lr_allow_lower rules)
    (lr_allow_space rules) (lr_allow_hyphen rules) (Some []).
Proof.
  unfold normalize_volume_text. cbv zeta.
  case_bool_decide as E; [symmetry; exact E|reflexivity].
Qed.

Lemma resanitize (upper_char : Z -> pystr) (label : pystr) (n : Z)
    (lo sp hy : bool) (d : option pystr) :
  upper_keeps_label upper_char ->
  0 <= n -> d = None \/ d = Some [] ->
  let s := sanitize_volume_label upper_char label n lo sp hy d in
  sanitize_volume_label upper_char s n lo sp hy d = rstrip_cp is_space_cp s.
Proof.
  intros Hup Hn Hd s.
  assert (Hd' : match d with Some d' => clean_label lo sp hy d' | None => true end
                = true) by (destruct Hd as [->| ->]; reflexivity).
  destruct (sanitize_clean upper_char label n lo sp hy d Hn Hd') as [Hc Hl].
  fold s in Hc, Hl.
  destruct Hd as [->| ->].
  - apply sanitize_clean_fixed; assumption.
  - rewrite sanitize_volume_label_default. cbv zeta.
    rewrite (sanitize_clean_fixed upper_char s n lo sp hy Hup Hn Hc Hl).
    destruct (rstrip_cp is_space_cp s); [apply py_slice_to_nil|reflexivity].
Qed.

Lemma no_space_rstrip_id (lo hy : bool) (s : pystr) :
  forallb (is_label_char lo false hy) s = true -> rstrip_cp is_space_cp s = s.
Proof.
  intros H. apply rstrip_cp_id. eapply forallb_weaken; [|exact H].
  intros c Hc. rewrite (label_char_no_space lo hy c Hc). reflexivity.
Qed.

(** The output of [sanitize_volume_label], for any text and any case table:
    for a non-negative [max_len] and a default label that is itself clean,
    the result has at most [max_len] characters, all of them in the allowed
    class (so no lower-case letter unless [allow_lower], no space unless
    [allow_space], no hyphen unless [allow_hyphen], no other whitespace and
    nothing outside ASCII), never two underscores or two spaces in a row,
    and it does not start with a space. *)
Theorem sanitize_volume_label_output (upper_char : Z -> pystr) (label : pystr)
    (max_len : Z) (allow_lower allow_space allow_hyphen : bool)
    (default_label : option pystr) :
  0 <= max_len ->
  match default_label with
  | Some d => clean_label allow_lower allow_space allow_hyphen d
  | None => true
  end = true ->
  let r := sanitize_volume_label upper_char label max_len allow_lower
             allow_space allow_hyphen default_label in
  (length r <= Z.to_nat max_len)%nat /\
  forallb (is_label_char allow_lower allow_space allow_hyphen) r = true /\
  no_adj is_underscore r = true /\ no_adj is_space_char r = true /\
  head_not_cp is_space_char r = true.
Proof.
  intros Hn Hd r.
  destruct (sanitize_clean upper_char label max_len allow_lower allow_space
              allow_hyphen default_label Hn Hd) as [Hc Hl].
  fold r in Hc, Hl. unfold clean_label in Hc. repeat rewrite andb_true_iff in Hc.
  destruct Hc as [[[Ha Hu] Hs] Hh]. repeat split; assumption.
Qed.

(** " straße é " with Python's case table: "STRASSE_". *)
Lemma sanitize_volume_label_output_witness :
  (0 <= 16 /\ clean_label false false false (cps "DATA") = true) /\
  sanitize_volume_label upper_latin1
    (cps " stra" ++ [223] ++ cps "e " ++ [233] ++ cps " ") 16 false false false
    (Some (cps "DATA")) = cps "STRASSE_" /\
  (length (sanitize_volume_label upper_latin1
             (cps " stra" ++ [223%Z] ++ cps "e " ++ [233%Z] ++ cps " ") 16
             false false false (Some (cps "DATA"))) <= 16)%nat.
Proof.
  split; [split; [lia|vm_compute; reflexivity]|].
  split; [vm_compute; reflexivity|].
  apply (sanitize_volume_label_output upper_latin1
           (cps " stra" ++ [223] ++ cps "e " ++ [233] ++ cps " ") 16
           false false false (Some (cps "DATA"))); [lia|vm_compute; reflexivity].
Defined.

(** Sanitizing an already sanitized label again (as the volume field does on
    every edit, with [default_label] [""]) only removes trailing
    whitespace: a label cut at [max_len] right after a space loses that
    space. When spaces are not allowed, sanitizing is idempotent. This
    holds for any case table that keeps [A-Z], [0-9], [_], [-] and the
    space as they are, as Unicode's does. *)
Theorem sanitize_volume_label_resanitize (upper_char : Z -> pystr)
    (label : pystr) (max_len : Z) (allow_lower allow_space allow_hyphen : bool)
    (default_label : option pystr) :
  upper_keeps_label upper_char ->
  0 <= max_len -> default_label = None \/ default_label = Some [] ->
  let s := sanitize_volume_label upper_char label max_len allow_lower
             allow_space allow_hyphen default_label in
  sanitize_volume_label upper_char s max_len allow_lower allow_space
    allow_hyphen default_label = rstrip_cp is_space_cp s /\
  (allow_space = false ->
   sanitize_volume_label upper_char s max_len allow_lower allow_space
     allow_hyphen default_label = s).
Proof.
  intros Hup Hn Hd s.
  pose proof (resanitize upper_char label max_len allow_lower allow_space
                allow_hyphen default_label Hup Hn Hd) as R. fold s in R.
  split; [exact R|]. intros Hsp. rewrite R. subst allow_space.
  assert (Hd' : match default_label with
                | Some d' => clean_label allow_lower false allow_hyphen d'
                | None => true end = true)
    by (destruct Hd as [->| ->]; reflexivity).
  destruct (sanitize_clean upper_char label max_len allow_lower false
              allow_hyphen default_label Hn Hd') as [Hc _].
  fold s in Hc. unfold clean_label in Hc. repeat rewrite andb_true_iff in Hc.
  apply (no_space_rstrip_id allow_lower allow_hyphen). tauto.
Qed.

Lemma sanitize_volume_label_resanitize_witness :
  upper_keeps_label upper_latin1 /\
  sanitize_volume_label upper_latin1 (cps "abc def") 4 true true true (Some [])
    = cps "abc " /\
  sanitize_volume_label upper_latin1 (cps "abc ") 4 true true true (Some [])
    = cps "abc" /\
  rstrip_cp is_space_cp (cps "abc ") = cps "abc".
Proof.
  assert (Hup : upper_keeps_label upper_latin1).
  { intros c Hc. unfold is_label_char in Hc. cbn [andb orb] in Hc. zbool.
    unfold upper_latin1.
    repeat match goal with
    | |- context [if ?b then _ else _] => destruct b eqn:?; zbool; try lia
    end; reflexivity. }
  split; [exact Hup|]. split; [vm_compute; reflexivity|].
  split; [|vm_compute; reflexivity].
  exact (proj1 (sanitize_volume_label_resanitize upper_latin1 (cps "abc def")
                  4 true true true (Some []) Hup ltac:(lia) (or_intror eq_refl))).
Defined.

(** The volume-label field ([_normalize_volume_text] with the rules of
    [_label_rules_for_mask]), for any entry and any case table that keeps
    [A-Z], [0-9], [_], [-] and the space: the normalized text fits the
    rule's length (16, or 64 for UDF without ISO9660) and the rule's
    character class; normalizing it again only removes trailing
    whitespace. With the ISO9660 bit, or without the UDF bit, the text is
    upper-case letters, digits and underscores, at most 16 characters, and
    normalizing again leaves it unchanged. *)
Theorem normalize_volume_text_stable (upper_char : Z -> pystr) (fs_mask : Z)
    (orig : pystr) :
  upper_keeps_label upper_char ->
  let rules := label_rules_for_mask fs_mask in
  let v := normalize_volume_text upper_char fs_mask orig in
  (length v <= Z.to_nat (lr_max_len rules))%nat /\
  forallb (is_label_char (lr_allow_lower rules) (lr_allow_space rules)
             (lr_allow_hyphen rules)) v = true /\
  normalize_volume_text upper_char fs_mask v = rstrip_cp is_space_cp v /\
  (Z.land fs_mask FS_ISO9660 <> 0 \/ Z.land fs_mask FS_UDF = 0 ->
   lr_max_len rules = 16 /\
   forallb (is_label_char false false false) v = true /\
   normalize_volume_text upper_char fs_mask v = v).
Proof.
  intros Hup rules v.
  assert (Hv : v = sanitize_volume_label upper_char orig (lr_max_len rules)
                     (lr_allow_lower rules) (lr_allow_space rules)
                     (lr_allow_hyphen rules) (Some []))
    by (unfold v; rewrite normalize_volume_text_eq; reflexivity).
  assert (Hn : 0 <= lr_max_len rules)
    by (unfold rules, label_rules_for_mask;
        destruct (Z.land fs_mask FS_ISO9660 =? 0), (Z.land fs_mask FS_UDF =? 0);
        simpl; lia).
  destruct (sanitize_clean upper_char orig (lr_max_len rules)
              (lr_allow_lower rules) (lr_allow_space rules)
              (lr_allow_hyphen rules) (Some []) Hn eq_refl) as [Hc Hl].
  rewrite <- Hv in Hc, Hl.
  assert (R : normalize_volume_text upper_char fs_mask v = rstrip_cp is_space_cp v).
  { rewrite normalize_volume_text_eq. cbv zeta. fold rules. rewrite Hv.
    apply resanitize; [exact Hup|exact Hn|right; reflexivity]. }
  unfold clean_label in Hc. repeat rewrite andb_true_iff in Hc.
  destruct Hc as [[[Ha _] _] _].
  split; [exact Hl|]. split; [exact Ha|]. split; [exact R|].
  intros Hiso.
  assert (Hr : lr_max_len rules = 16 /\ lr_allow_lower rules = false /\
               lr_allow_space rules = false /\ lr_allow_hyphen rules = false).
  { unfold rules, label_rules_for_mask.
    destruct (Z.eqb_spec (Z.land fs_mask FS_ISO9660) 0),
             (Z.eqb_spec (Z.land fs_mask FS_UDF) 0); simpl;
      try (repeat split; reflexivity).
    exfalso. destruct Hiso; contradiction. }
  destruct Hr as [H16 [Hlo [Hsp Hhy]]].
  rewrite Hlo, Hsp, Hhy in Ha.
  split; [exact H16|]. split; [exact Ha|].
  rewrite R. apply (no_space_rstrip_id false false). exact Ha.
Qed.

Lemma normalize_volume_text_stable_witness :
  upper_keeps_label upper_latin1 /\
  normalize_volume_text upper_latin1 3 (cps "my-disc 1") = cps "MY_DISC_1" /\
  normalize_volume_text upper_latin1 3
    (normalize_volume_text upper_latin1 3 (cps "my-disc 1")) =
    normalize_volume_text upper_latin1 3 (cps "my-disc 1").
Proof.
  assert (Hup : upper_keeps_label upper_latin1).
  { intros c Hc. unfold is_label_char in Hc. cbn [andb orb] in Hc. zbool.
    unfold upper_latin1.
    repeat match goal with
    | |- context [if ?b then _ else _] => destruct b eqn:?; zbool; try lia
    end; reflexivity. }
  split; [exact Hup|]. split; [vm_compute; reflexivity|].
  destruct (normalize_volume_text_stable upper_latin1 3 (cps "my-disc 1") Hup)
    as [_ [_ [_ H]]].
  apply H. left. vm_compute. discriminate.
Defined.

(** A label that is empty or only whitespace (Unicode whitespace, as
    [str.strip] sees it) gives [default_label[:max_len]] (or the empty
    label when [default_label] is [None]), whatever the case table. *)
Theorem sanitize_volume_label_blank (upper_char : Z -> pystr) (label : pystr)
    (max_len : Z) (allow_lower allow_space allow_hyphen : bool)
    (default_label : option pystr) :
  forallb is_space_cp label = true ->
  sanitize_volume_label upper_char label max_len allow_lower allow_space
    allow_hyphen default_label =
  match default_label with Some d => py_slice_to d max_len | None => [] end.
Proof.
  intros H.
  assert (E : strip_cp is_space_cp label = [])
    by (unfold strip_cp; rewrite (lstrip_cp_all _ _ H); reflexivity).
  unfold sanitize_volume_label. cbv zeta. rewrite E.
  destruct allow_lower, allow_space; cbn [str_upper flat_map collapse_runs map];
    unfold strip_cp; cbn [lstrip_cp rstrip_cp collapse_runs]; rewrite py_slice_to_nil;
    destruct default_label; reflexivity.
Qed.

(** Two spaces, an ideographic space (U+3000) and a tab. *)
Lemma sanitize_volume_label_blank_witness :
  forallb is_space_cp [32; 32; 12288; 9] = true /\
  sanitize_volume_label upper_latin1 [32; 32; 12288; 9] 16 false false false
    (Some (cps "DATA")) = cps "DATA".
Proof.
  split; [vm_compute; reflexivity|].
  exact (sanitize_volume_label_blank upper_latin1 [32; 32; 12288; 9] 16
           false false false (Some (cps "DATA")) eq_refl).
Defined.

(* ------------------------------------------------------------------ *)
(** ** Locale files *)

Lemma lstrip_id (p : ascii -> bool) (s : string) :
  head_not p s = true -> lstrip_by p s = s.
Proof.
  destruct s as [|c r]; simpl; [reflexivity|].
  intros H. destruct (p c); [discriminate|reflexivity].
Qed.

Lemma length_substring_le_s (n : nat) (s : string) :
  (String.length (substring 0 n s) <= String.length s)%nat.
Proof.
  revert n. induction s as [|c r IH]; intros [|n]; simpl; try lia.
  specialize (IH n). lia.
Qed.

Lemma rstrip_prefix (p : ascii -> bool) (s : string) :
  rstrip_by p s = substring 0 (String.length (rstrip_by p s)) s.
Proof.
  induction s as [|c r IH]; simpl; [reflexivity|].
  destruct (rstrip_by p r) as [|a b] eqn:E.
  - destruct (p c); simpl; [destruct r; reflexivity|].
    destruct r; reflexivity.
  - simpl. f_equal. exact IH.
Qed.

Lemma length_rstrip_le (p : ascii -> bool) (s : string) :
  (String.length (rstrip_by p s) <= String.length s)%nat.
Proof. rewrite rstrip_prefix. apply length_substring_le_s. Qed.

Lemma has_pair_cons (a b c : ascii) (s : string) :
  has_pair a b (String c s) =
  match s with String c2 _ => Ascii.eqb c a && Ascii.eqb c2 b | _ => false end
  || has_pair a b s.
Proof. destruct s; reflexivity. Qed.

Lemma replace2_cons (a b x c : ascii) (s : string) :
  replace2 a b (String x "") (String c s) =
  match s with
  | String c2 rest =>
      if Ascii.eqb c a && Ascii.eqb c2 b then String x (replace2 a b (String x "") rest)
      else String c (replace2 a b (String x "") s)
  | EmptyString => String c EmptyString
  end.
Proof. destruct s; reflexivity. Qed.

Lemma replace2_strong (P : string -> Prop) :
  (forall s, (forall s', (String.length s' < String.length s)%nat -> P s') -> P s) ->
  forall s, P s.
Proof.
  intros H s. remember (String.length s) as n eqn:E.
  revert s E. induction n as [n IH] using lt_wf_ind.
  intros s ->. apply H. intros s' Hlt. apply (IH _ Hlt s' eq_refl).
Qed.

Lemma replace2_head (a b x c : ascii) (s : string) :
  exists h R, replace2 a b (String x "") (String c s) = String h R /\
    (h = c \/ (h = x /\ Ascii.eqb c a = true)).
Proof.
  rewrite replace2_cons. destruct s as [|c2 rest]; [eauto|].
  destruct (Ascii.eqb c a) eqn:Ea; destruct (Ascii.eqb c2 b); simpl;
    eexists; eexists; (split; [reflexivity|]); auto.
Qed.

Lemma replace2_no_pair (a b x : ascii) :
  x <> a -> x <> b -> forall s, has_pair a b (replace2 a b (String x "") s) = false.
Proof.
  intros Hxa Hxb. apply replace2_strong. intros s IH.
  destruct s as [|c s]; [reflexivity|]. rewrite replace2_cons.
  destruct s as [|c2 rest]; [reflexivity|].
  destruct (Ascii.eqb c a && Ascii.eqb c2 b) eqn:M.
  - rewrite has_pair_cons, IH by (simpl; lia). rewrite orb_false_r.
    destruct (replace2 a b _ rest); [reflexivity|].
    apply Ascii.eqb_neq in Hxa. rewrite Hxa. reflexivity.
  - rewrite has_pair_cons, IH by (simpl; lia). rewrite orb_false_r.
    destruct (replace2_head a b x c2 rest) as [h [R [-> Hh]]].
    destruct (Ascii.eqb c a) eqn:Ea; [|reflexivity]. simpl in M |- *.
    destruct Hh as [->|[-> _]]; [exact M|]. apply Ascii.eqb_neq, Hxb.
Qed.

Lemma replace2_keeps_no_pair (a b x a' b' : ascii) :
  x <> a' -> x <> b' -> forall s, has_pair a' b' s = false ->
  has_pair a' b' (replace2 a b (String x "") s) = false.
Proof.
  intros Hxa Hxb.
  apply (replace2_strong (fun s => has_pair a' b' s = false ->
    has_pair a' b' (replace2 a b (String x "") s) = false)).
  intros s IH Hs.
  destruct s as [|c s]; [reflexivity|]. rewrite replace2_cons.
  destruct s as [|c2 rest]; [reflexivity|].
  rewrite has_pair_cons in Hs. apply orb_false_iff in Hs as [Hcc Hs].
  destruct (Ascii.eqb c a && Ascii.eqb c2 b) eqn:M.
  - rewrite has_pair_cons, IH; [|simpl; lia|].
    + rewrite orb_false_r. destruct (replace2 a b _ rest); [reflexivity|].
      apply Ascii.eqb_neq in Hxa. rewrite Hxa. reflexivity.
    + rewrite has_pair_cons in Hs. apply orb_false_iff in Hs. tauto.
  - rewrite has_pair_cons, IH by (simpl; lia || exact Hs). rewrite orb_false_r.
    destruct (replace2_head a b x c2 rest) as [h [R [-> Hh]]].
    destruct Hh as [->|[-> _]]; [exact Hcc|].
    apply Ascii.eqb_neq in Hxb. rewrite Hxb, andb_false_r. reflexivity.
Qed.

Lemma replace2_length (a b x : ascii) (s : string) :
  (String.length (replace2 a b (String x "") s) <= String.length s)%nat.
Proof.
  revert s. apply replace2_strong. intros s IH.
  destruct s as [|c s]; [reflexivity|]. rewrite replace2_cons.
  destruct s as [|c2 rest]; [reflexivity|].
  destruct (Ascii.eqb c a && Ascii.eqb c2 b).
  - simpl. specialize (IH rest ltac:(simpl; lia)). lia.
  - simpl. specialize (IH (String c2 rest) ltac:(simpl; lia)). simpl in IH. lia.
Qed.

Lemma replace2_id (a b : ascii) (new s : string) :
  all_chars (fun c => negb (Ascii.eqb c a)) s = true -> replace2 a b new s = s.
Proof.
  induction s as [|c s IH]; [reflexivity|]. simpl all_chars.
  intros H. apply andb_prop in H as [Hc Hs].
  destruct s as [|c2 rest]; [reflexivity|].
  change (replace2 a b new (String c (String c2 rest))) with
    (if Ascii.eqb c a && Ascii.eqb c2 b then String.append new (replace2 a b new rest)
     else String c (replace2 a b new (String c2 rest))).
  destruct (Ascii.eqb c a); [discriminate|]. simpl. f_equal. apply IH, Hs.
Qed.

Lemma unescape_value_id (value : string) :
  all_chars (fun c => negb (Ascii.eqb c backslash)) value = true ->
  unescape_value value = value.
Proof.
  intros H. unfold unescape_value. cbv zeta.
  rewrite (replace2_id _ _ _ value H), (replace2_id _ _ _ value H).
  apply replace2_id, H.
Qed.

(** [_unescape_value] never leaves a backslash followed by [n] or [t] in
    its result: a value cannot denote those two characters literally
    (["\\\\n"] in the file, meant as a backslash and [n], becomes a
    newline). A value without backslashes is returned unchanged, and
    unescaping never makes a value longer. *)
Theorem unescape_value_no_escape_left (value : string) :
  has_pair backslash "n"%char (unescape_value value) = false /\
  has_pair backslash "t"%char (unescape_value value) = false /\
  (String.length (unescape_value value) <= String.length value)%nat /\
  (all_chars (fun c => negb (Ascii.eqb c backslash)) value = true ->
   unescape_value value = value).
Proof.
  unfold unescape_value. cbv zeta. repeat split.
  - apply replace2_keeps_no_pair; [discriminate|discriminate|].
    apply replace2_no_pair; discriminate.
  - apply replace2_no_pair; discriminate.
  - etransitivity; [apply replace2_length|].
    etransitivity; [apply replace2_length|]. apply replace2_length.
  - fold (unescape_value value). apply unescape_value_id.
Qed.

Lemma lstrip_app (p : ascii -> bool) (s1 s2 : string) :
  lstrip_by p (String.append s1 s2) =
  match lstrip_by p s1 with
  | EmptyString => lstrip_by p s2
  | r => String.append r s2
  end.
Proof.
  induction s1 as [|c r IH]; [reflexivity|]. simpl.
  destruct (p c); [exact IH|reflexivity].
Qed.

Lemma rstrip_app_keep (p : ascii -> bool) (s1 : string) (c : ascii) (s2 : string) :
  p c = false ->
  rstrip_by p (String.append s1 (String c s2)) =
  String.append s1 (String c (rstrip_by p s2)).
Proof.
  intros Hc. induction s1 as [|c1 r IH]; simpl.
  - destruct (rstrip_by p s2); [rewrite Hc|]; reflexivity.
  - rewrite IH. destruct r; reflexivity.
Qed.

Lemma lstrip_length_le (p : ascii -> bool) (s : string) :
  (String.length (lstrip_by p s) <= String.length s)%nat.
Proof. induction s as [|c r IH]; simpl; [lia|]. destruct (p c); simpl; lia. Qed.

Lemma lstrip_length_eq (p : ascii -> bool) (s : string) :
  String.length (lstrip_by p s) = String.length s -> lstrip_by p s = s.
Proof.
  destruct s as [|c r]; simpl; [reflexivity|]. destruct (p c); [|reflexivity].
  pose proof (lstrip_length_le p r). lia.
Qed.

Lemma meta_ok_lstrip (v : string) : ini_meta_ok v = true -> py_lstrip v = v.
Proof.
  unfold ini_meta_ok, py_strip, strip_by, py_lstrip. intros H.
  apply andb_prop in H as [_ H]. apply String.eqb_eq in H.
  apply lstrip_length_eq.
  pose proof (length_rstrip_le is_py_space (lstrip_by is_py_space v)).
  pose proof (lstrip_length_le is_py_space v). rewrite H in *. lia.
Qed.

Lemma prefix_one (a c : ascii) (t : string) :
  String.prefix (String a EmptyString) (String c t) = Ascii.eqb a c.
Proof.
  simpl. destruct (ascii_dec a c) as [->|Hne].
  - rewrite Ascii.eqb_refl. destruct t; reflexivity.
  - symmetry. apply Ascii.eqb_neq, Hne.
Qed.

Lemma split_first_eq_line (k v : string) :
  all_chars (fun c => negb (Ascii.eqb c "="%char)) k = true ->
  split_first_eq (ini_entry_line (k, v)) = Some (k, v).
Proof.
  unfold ini_entry_line; simpl. induction k as [|c r IH]; [reflexivity|].
  simpl. intros H. apply andb_prop in H as [Hc Hr].
  destruct (Ascii.eqb c "="%char); [discriminate|]. rewrite IH by exact Hr.
  reflexivity.
Qed.

Lemma strip_entry_line (k v : string) :
  py_strip (ini_entry_line (k, v)) =
  String.append (py_lstrip k) (String "="%char (py_rstrip v)).
Proof.
  unfold py_strip, strip_by, ini_entry_line; simpl. rewrite lstrip_app.
  fold (py_lstrip k). destruct (py_lstrip k) as [|c r] eqn:E.
  - apply (rstrip_app_keep _ EmptyString). reflexivity.
  - apply rstrip_app_keep. reflexivity.
Qed.

(** The tests of the line loop on an entry line whose key is readable. *)
Lemma ini_line_entry (k v : string) :
  ini_key_ok k = true ->
  let stripped := py_strip (ini_entry_line (k, v)) in
  (String.eqb stripped "" || String.prefix "#" stripped ||
   String.prefix ";" stripped) = false /\
  (String.prefix "[" stripped && py_endswith_char "]"%char stripped) = false /\
  split_first_eq (ini_entry_line (k, v)) = Some (k, v).
Proof.
  unfold ini_key_ok. intros H. apply andb_prop in H as [H H3].
  apply andb_prop in H as [H1 _]. cbv zeta. rewrite strip_entry_line.
  split; [|split; [|apply split_first_eq_line, H1]].
  - destruct (py_lstrip k) as [|c r]; [reflexivity|]. cbv [String.append]; fold String.append.
    rewrite !prefix_one. simpl in H3. unfold is_ini_marker in H3.
    destruct (Ascii.eqb_spec c "#"%char) as [->|]; [discriminate|].
    destruct (Ascii.eqb_spec c ";"%char) as [->|]; [discriminate|].
    destruct (Ascii.eqb_spec "#"%char c); [congruence|].
    destruct (Ascii.eqb_spec ";"%char c); [congruence|]. reflexivity.
  - destruct (py_lstrip k) as [|c r]; [reflexivity|]. cbv [String.append]; fold String.append.
    rewrite prefix_one. simpl in H3. unfold is_ini_marker in H3.
    destruct (Ascii.eqb_spec c "["%char) as [->|]; [rewrite !orb_true_r in H3; discriminate|].
    destruct (Ascii.eqb_spec "["%char c); [congruence|]. reflexivity.
Qed.

Lemma ini_step_entry (st : ini_state) (k v : string) :
  ini_key_ok k = true ->
  ini_step st (ini_entry_line (k, v)) =
  (let key := py_rstrip k in
   let value := py_lstrip v in
   let section := match ini_section st with
                  | Some s => if String.eqb s "" then TRANSLATION_SECTION else s
                  | None => TRANSLATION_SECTION
                  end in
   if String.eqb section META_SECTION then
     if String.eqb key "code" && negb (String.eqb value "") then
       {| ini_code := (let v := py_strip value in
                       if String.eqb v "" then ini_code st else v);
          ini_name := ini_name st; ini_trans := ini_trans st;
          ini_section := ini_section st |}
     else if String.eqb key "name" && negb (String.eqb value "") then
       {| ini_code := ini_code st; ini_name := Some (py_strip value);
          ini_trans := ini_trans st; ini_section := ini_section st |}
     else st
   else if negb (String.eqb section TRANSLATION_SECTION) then st
   else
     {| ini_code := ini_code st; ini_name := ini_name st;
        ini_trans := <[key := unescape_value value]> (ini_trans st);
        ini_section := ini_section st |}).
Proof.
  intros H. destruct (ini_line_entry k v H) as [H1 [H2 H3]].
  unfold ini_step. cbv zeta in *. rewrite H1, H2, H3. reflexivity.
Qed.

Lemma ini_fold_entries (kvs : list (string * string)) (st : ini_state) :
  ini_section st = Some TRANSLATION_SECTION ->
  forallb ini_entry_ok kvs = true ->
  fold_left ini_step (map ini_entry_line kvs) st =
  {| ini_code := ini_code st; ini_name := ini_name st;
     ini_trans := fold_left (fun m kv => <[kv.1 := kv.2]> m) kvs (ini_trans st);
     ini_section := ini_section st |}.
Proof.
  revert st. induction kvs as [|[k v] kvs IH]; intros st Hs Hok.
  - destruct st; reflexivity.
  - simpl in Hok. apply andb_prop in Hok as [Hkv Hok].
    unfold ini_entry_ok in Hkv; simpl in Hkv.
    apply andb_prop in Hkv as [Hkv Hv2]. apply andb_prop in Hkv as [Hk Hv1].
    simpl. rewrite ini_step_entry by exact Hk. cbv zeta. rewrite Hs.
    simpl. rewrite IH by (reflexivity || exact Hok). simpl.
    unfold ini_key_ok in Hk. apply andb_prop in Hk as [Hk _].
    apply andb_prop in Hk as [_ Hk]. apply String.eqb_eq in Hk.
    rewrite Hk. unfold py_lstrip. rewrite (lstrip_id _ _ Hv1).
    rewrite (unescape_value_id v Hv2). reflexivity.
Qed.

Lemma meta_ok_parts (v : string) :
  ini_meta_ok v = true ->
  py_lstrip v = v /\ String.eqb v "" = false /\ py_strip v = v.
Proof.
  intros H. split; [apply meta_ok_lstrip, H|].
  unfold ini_meta_ok in H. apply andb_prop in H as [H1 H2].
  apply negb_true_iff in H1. apply String.eqb_eq in H2. auto.
Qed.

Lemma ini_step_meta_header (st : ini_state) :
  ini_step st "[meta]" =
  {| ini_code := ini_code st; ini_name := ini_name st; ini_trans := ini_trans st;
     ini_section := Some META_SECTION |}.
Proof. reflexivity. Qed.

Lemma ini_step_translations_header (st : ini_state) :
  ini_step st "[translations]" =
  {| ini_code := ini_code st; ini_name := ini_name st; ini_trans := ini_trans st;
     ini_section := Some TRANSLATION_SECTION |}.
Proof. reflexivity. Qed.

Lemma ini_step_meta_code (st : ini_state) (v : string) :
  ini_section st = Some META_SECTION -> ini_meta_ok v = true ->
  ini_step st (ini_entry_line ("code", v)) =
  {| ini_code := v; ini_name := ini_name st; ini_trans := ini_trans st;
     ini_section := ini_section st |}.
Proof.
  intros Hs Hv. destruct (meta_ok_parts v Hv) as [H1 [H2 H3]].
  rewrite ini_step_entry by reflexivity. cbv zeta. rewrite Hs, H1, H3, H2.
  reflexivity.
Qed.

Lemma ini_step_meta_name (st : ini_state) (v : string) :
  ini_section st = Some META_SECTION -> ini_meta_ok v = true ->
  ini_step st (ini_entry_line ("name", v)) =
  {| ini_code := ini_code st; ini_name := Some v; ini_trans := ini_trans st;
     ini_section := ini_section st |}.
Proof.
  intros Hs Hv. destruct (meta_ok_parts v Hv) as [H1 [H2 H3]].
  rewrite ini_step_entry by reflexivity. cbv zeta. rewrite Hs, H1, H3, H2.
  reflexivity.
Qed.

Lemma fold_insert_list_to_map (kvs : list (string * string)) :
  fold_left (fun (m : gmap string string) kv => <[kv.1 := kv.2]> m) kvs ∅ =
  list_to_map (rev kvs).
Proof.
  rewrite <- fold_left_rev_right. induction (rev kvs) as [|[k v] l IH];
  [reflexivity|]. simpl. rewrite IH. reflexivity.
Qed.

(** A locale file written in the layout [[meta]] [code=...] [name=...]
    [[translations]] followed by [key=value] lines is read back by
    [_parse_ini_file] as its code, its name and its entries, a later entry
    overriding an earlier one with the same key. Keys need no [=], no
    trailing blank and no [#], [;] or [[] as first non-blank character;
    values need no leading blank and no backslash; code and name must be
    nonempty and carry no surrounding blanks. *)
Theorem parse_ini_file_roundtrip (stem code name : string)
    (kvs : list (string * string)) :
  ini_meta_ok code = true -> ini_meta_ok name = true ->
  forallb ini_entry_ok kvs = true ->
  parse_ini_file stem (ini_file_lines code name kvs) =
  (code, list_to_map (rev kvs), Some name).
Proof.
  intros Hc Hn Hkvs.
  destruct (meta_ok_parts code Hc) as [Hc1 [Hc2 Hc3]].
  destruct (meta_ok_parts name Hn) as [Hn1 [Hn2 Hn3]].
  unfold parse_ini_file, ini_file_lines. cbn [fold_left].
  rewrite ini_step_meta_header, ini_step_meta_code by (reflexivity || exact Hc).
  rewrite ini_step_meta_name by (reflexivity || exact Hn).
  rewrite ini_step_translations_header, ini_fold_entries
    by (reflexivity || exact Hkvs).
  cbn [ini_code ini_trans ini_name]. rewrite fold_insert_list_to_map.
  reflexivity.
Qed.

Lemma parse_ini_file_roundtrip_witness :
  (ini_meta_ok "ko" = true) /\ (ini_meta_ok "Korean" = true) /\
  (forallb ini_entry_ok
     (("Open", "Yeolgi") :: ("  Burn disc", "Gulgi") :: ("Open", "Yeol-gi") :: nil)
   = true) /\
  (parse_ini_file "x" (ini_file_lines "ko" "Korean"
     (("Open", "Yeolgi") :: ("  Burn disc", "Gulgi") :: ("Open", "Yeol-gi") :: nil)) =
   ("ko", list_to_map (rev
     (("Open", "Yeolgi") :: ("  Burn disc", "Gulgi") :: ("Open", "Yeol-gi") :: nil)),
    Some "Korean")).
Proof.
  split; [reflexivity|]. split; [reflexivity|]. split; [reflexivity|].
  apply parse_ini_file_roundtrip; reflexivity.
Defined.

Lemma fold_left_ini_step_skip (raw : string) (lines : list string) (st : ini_state) :
  (forall st', ini_step st' raw = st') ->
  fold_left ini_step lines (ini_step st raw) = fold_left ini_step lines st.
Proof. intros H. rewrite H. reflexivity. Qed.

Lemma split_first_eq_none (s : string) :
  all_chars (fun c => negb (Ascii.eqb c "="%char)) s = true ->
  split_first_eq s = None.
Proof.
  induction s as [|c r IH]; [reflexivity|]. simpl. intros H.
  apply andb_prop in H as [Hc Hr].
  destruct (Ascii.eqb c "="%char); [discriminate|]. rewrite IH by exact Hr.
  reflexivity.
Qed.

(** Wherever it stands in the file, a blank line, a comment line (first
    non-blank character [#] or [;]) or a line without [=] that is not a
    [[section]] header has no effect on what [_parse_ini_file] returns. *)
Theorem parse_ini_file_ignored_line (stem raw : string)
    (before after : list string) :
  (String.eqb (py_strip raw) "" || String.prefix "#" (py_strip raw) ||
   String.prefix ";" (py_strip raw) = true) \/
  (all_chars (fun c => negb (Ascii.eqb c "="%char)) raw = true /\
   (String.prefix "[" (py_strip raw) &&
    py_endswith_char "]"%char (py_strip raw)) = false) ->
  parse_ini_file stem (before ++ raw :: after) =
  parse_ini_file stem (before ++ after).
Proof.
  intros H. unfold parse_ini_file. rewrite !fold_left_app. cbn [fold_left].
  rewrite fold_left_ini_step_skip; [reflexivity|]. intros st'.
  unfold ini_step. cbv zeta. destruct H as [H|[H1 H2]].
  - rewrite H. reflexivity.
  - rewrite H2, split_first_eq_none by exact H1.
    destruct (_ || _ || _); reflexivity.
Qed.

Lemma parse_ini_file_ignored_line_witness :
  ((String.eqb (py_strip "  ; note") "" || String.prefix "#" (py_strip "  ; note") ||
    String.prefix ";" (py_strip "  ; note") = true) \/
   (all_chars (fun c => negb (Ascii.eqb c "="%char)) "  ; note" = true /\
    (String.prefix "[" (py_strip "  ; note") &&
     py_endswith_char "]"%char (py_strip "  ; note")) = false)) /\
  parse_ini_file "de" (["[translations]"] ++ "  ; note" :: ["Open=Oeffnen"]) =
  parse_ini_file "de" (["[translations]"] ++ ["Open=Oeffnen"]).
Proof.
  assert (H : (String.eqb (py_strip "  ; note") "" ||
               String.prefix "#" (py_strip "  ; note") ||
               String.prefix ";" (py_strip "  ; note") = true) \/
              (all_chars (fun c => negb (Ascii.eqb c "="%char)) "  ; note" = true /\
               (String.prefix "[" (py_strip "  ; note") &&
                py_endswith_char "]"%char (py_strip "  ; note")) = false))
    by (left; reflexivity).
  split; [exact H|]. apply parse_ini_file_ignored_line, H.
Defined.

Lemma setdefault_keeps (k v k' : string) (x : string) (m : gmap string string) :
  m !! k' = Some x -> setdefault k v m !! k' = Some x.
Proof.
  unfold setdefault. intros H. destruct (m !! k) eqn:E; [exact H|].
  destruct (decide (k = k')) as [->|Hne]; [congruence|].
  rewrite lookup_insert_ne by exact Hne. exact H.
Qed.

Lemma setdefault_is_some (k v : string) (m : gmap string string) :
  is_Some (setdefault k v m !! k).
Proof.
  unfold setdefault. destruct (m !! k) eqn:E; [rewrite E; eauto|].
  rewrite lookup_insert_eq. eauto.
Qed.

Lemma setdefault_fold_keeps (l : list string) (m : gmap string string) k x :
  m !! k = Some x ->
  fold_left (fun names lang => setdefault lang lang names) l m !! k = Some x.
Proof.
  revert m. induction l as [|a l IH]; intros m H; [exact H|].
  simpl. apply IH, setdefault_keeps, H.
Qed.

Lemma setdefault_fold_covers (l : list string) (m : gmap string string) k :
  In k l ->
  is_Some (fold_left (fun names lang => setdefault lang lang names) l m !! k).
Proof.
  revert m. induction l as [|a l IH]; intros m H; [destruct H|].
  simpl. destruct H as [->|H]; [|apply IH, H].
  destruct (setdefault_is_some k k m) as [x Hx].
  exists x. apply setdefault_fold_keeps, Hx.
Qed.

Lemma load_step_names (acc : gmap string (gmap string string) * gmap string string)
    f k x :
  acc.2 !! k = Some x -> (load_step acc f).2 !! k = Some x.
Proof.
  destruct acc as [tr names]. unfold load_step.
  destruct (parse_ini_file f.1 f.2) as [[c p] n]. simpl. intros H.
  destruct n as [n|]; [|exact H]. destruct (String.eqb n ""); [exact H|].
  apply setdefault_keeps, H.
Qed.

Lemma load_step_tr (acc : gmap string (gmap string string) * gmap string string)
    f k :
  is_Some (acc.1 !! k) -> is_Some ((load_step acc f).1 !! k).
Proof.
  destruct acc as [tr names]. unfold load_step.
  destruct (parse_ini_file f.1 f.2) as [[c p] n]. simpl. intros H.
  destruct (decide (c = k)) as [->|Hne].
  - rewrite lookup_insert_eq. eauto.
  - rewrite lookup_insert_ne by exact Hne. exact H.
Qed.

Lemma load_step_code (acc : gmap string (gmap string string) * gmap string string)
    f :
  is_Some ((load_step acc f).1 !! (parse_ini_file f.1 f.2).1.1).
Proof.
  destruct acc as [tr names]. unfold load_step.
  destruct (parse_ini_file f.1 f.2) as [[c p] n]. simpl.
  rewrite lookup_insert_eq. eauto.
Qed.

Lemma load_fold_names files acc k x :
  acc.2 !! k = Some x -> (fold_left load_step files acc).2 !! k = Some x.
Proof.
  revert acc. induction files as [|f files IH]; intros acc H; [exact H|].
  simpl. apply IH, load_step_names, H.
Qed.

Lemma load_fold_tr files acc k :
  is_Some (acc.1 !! k) -> is_Some ((fold_left load_step files acc).1 !! k).
Proof.
  revert acc. induction files as [|f files IH]; intros acc H; [exact H|].
  simpl. apply IH, load_step_tr, H.
Qed.

Lemma load_fold_codes files acc f :
  In f files ->
  is_Some ((fold_left load_step files acc).1 !! (parse_ini_file f.1 f.2).1.1).
Proof.
  revert acc. induction files as [|g files IH]; intros acc H; [destruct H|].
  simpl. destruct H as [->|H]; [|apply IH, H].
  apply load_fold_tr, load_step_code.
Qed.

(** [_load_translations] always names English ["English"] (a locale file
    cannot rename it); the language code of every locale file read gets a
    table in [TRANSLATIONS]; and every language of [TRANSLATIONS] has an
    entry in [LANGUAGE_NAMES]. *)
Theorem load_translations_names (files : list (string * list string)) :
  (load_translations files).2 !! "en" = Some "English" /\
  (forall f, In f files ->
     is_Some ((load_translations files).1 !! (parse_ini_file f.1 f.2).1.1)) /\
  (forall lang, is_Some ((load_translations files).1 !! lang) ->
     is_Some ((load_translations files).2 !! lang)).
Proof.
  unfold load_translations.
  pose proof (load_fold_names files (∅, DEFAULT_LANGUAGE_NAMES) "en" "English"
                eq_refl) as Hen.
  pose proof (load_fold_codes files (∅, DEFAULT_LANGUAGE_NAMES)) as Hcodes.
  destruct (fold_left load_step files (∅, DEFAULT_LANGUAGE_NAMES))
    as [tr names]. simpl in *. split; [|split].
  - apply setdefault_fold_keeps, Hen.
  - exact Hcodes.
  - intros lang [t Ht]. apply setdefault_fold_covers.
    apply in_map_iff. exists (lang, t). split; [reflexivity|].
    apply list_elem_of_In, elem_of_map_to_list, Ht.
Qed.

(* ------------------------------------------------------------------ *)
(** ** The IMAPI event sink *)

Lemma update_percent_bounds (lba : option (Z * Z * Z)) (p : Z) :
  update_percent lba = Some p -> 0 <= p <= 100.
Proof.
  unfold update_percent. destruct lba as [[[start last] count]|]; [|discriminate].
  destruct (0 <? count); [|discriminate]. intros H; injection H as <-.
  set (x := (inject_Z ((last - start) * 100) / inject_Z count)%Q).
  split.
  - change 0 with (Qfloor 0). apply Qfloor_resp_le, Q.le_max_l.
  - change 100 with (Qfloor 100). apply Qfloor_resp_le.
    apply Q.max_lub; [discriminate|apply Q.le_min_l].
Qed.

Lemma progress_values_app (a b : list sink_out) :
  progress_values (a ++ b) = progress_values a ++ progress_values b.
Proof. apply flat_map_app. Qed.

Lemma on_update_progress (st : sink_state) stop a lba :
  (progress_values (on_update st stop a lba).2 = [] /\
   sink_last_percent (on_update st stop a lba).1 = sink_last_percent st) \/
  (exists p, progress_values (on_update st stop a lba).2 = [p] /\
   sink_last_percent (on_update st stop a lba).1 = p /\
   p <> sink_last_percent st /\ 0 <= p <= 100).
Proof.
  unfold on_update. destruct stop; [left; split; reflexivity|].
  destruct (bool_decide _);
  destruct (update_percent lba) as [p|] eqn:Hp; try (left; split; reflexivity);
  destruct (p =? sink_last_percent st) eqn:E; try (left; split; reflexivity);
  right; exists p; apply Z.eqb_neq in E; pose proof (update_percent_bounds _ _ Hp);
  repeat split; auto; lia.
Qed.

Lemma on_updates_progress_from (st : sink_state) evs :
  Forall (fun p => 0 <= p <= 100) (progress_values (on_updates st evs)) /\
  adj_distinct (progress_values (on_updates st evs)) = true /\
  (forall p rest, progress_values (on_updates st evs) = p :: rest ->
     p <> sink_last_percent st).
Proof.
  revert st. induction evs as [|[[stop a] lba] evs IH]; intros st.
  - simpl. repeat split; [constructor|discriminate].
  - simpl. pose proof (on_update_progress st stop a lba) as Hst.
    destruct (on_update st stop a lba) as [st' outs]. simpl in Hst.
    destruct (IH st') as [Hb [Hd Hh]].
    rewrite progress_values_app.
    destruct Hst as [[-> Hl]|[p [-> [Hl [Hne Hr]]]]].
    + simpl. rewrite <- Hl. auto.
    + simpl. repeat split.
      * constructor; assumption.
      * destruct (progress_values (on_updates st' evs)) as [|q r] eqn:E;
          [reflexivity|].
        cbn [adj_distinct]. apply andb_true_intro; split; [|exact Hd].
        apply negb_true_iff, Z.eqb_neq. intros Heq. apply (Hh q r eq_refl). congruence.
      * intros q r [= -> _]. exact Hne.
Qed.

(** Over any sequence of [OnUpdate] events, the percentages the sink
    passes to the progress callback are all between 0 and 100, and two
    consecutive ones always differ: a percentage equal to the last one
    emitted is never emitted again. *)
Theorem on_updates_progress (evs : list (bool * option Z * option (Z * Z * Z))) :
  Forall (fun p => 0 <= p <= 100) (progress_values (on_updates sink_init evs)) /\
  adj_distinct (progress_values (on_updates sink_init evs)) = true.
Proof.
  destruct (on_updates_progress_from sink_init evs) as [H1 [H2 _]]. auto.
Qed.

(* ------------------------------------------------------------------ *)
(** ** The source list *)

Lemma remove_first_in (x p : string) (l : list string) :
  In x (remove_first p l) -> In x l.
Proof.
  induction l as [|y l IH]; simpl; [tauto|].
  destruct (String.eqb p y); simpl; tauto.
Qed.

Lemma remove_first_keeps (x p : string) (l : list string) :
  In x l -> x <> p -> In x (remove_first p l).
Proof.
  induction l as [|y l IH]; simpl; [tauto|]. intros H Hne.
  destruct (String.eqb_spec p y) as [->|]; simpl.
  - destruct H as [->|H]; [congruence|exact H].
  - destruct H as [->|H]; [left; reflexivity|right; apply IH; assumption].
Qed.

Lemma remove_first_notin (p : string) (l : list string) :
  ~ In p l -> remove_first p l = l.
Proof.
  induction l as [|y l IH]; simpl; [reflexivity|]. intros H.
  destruct (String.eqb_spec p y) as [->|]; [tauto|]. rewrite IH by tauto.
  reflexivity.
Qed.

Lemma remove_first_nodup (p : string) (l : list string) :
  NoDup l -> NoDup (remove_first p l) /\ ~ In p (remove_first p l).
Proof.
  induction l as [|y l IH]; simpl; intros H; [split; [constructor|tauto]|].
  inversion H as [|? ? Hy Hl]; subst. rewrite list_elem_of_In in Hy.
  destruct (String.eqb_spec p y) as [->|Hne]; [simpl; split; assumption|].
  destruct (IH Hl) as [H1 H2]. split.
  - constructor; [|exact H1]. rewrite list_elem_of_In. intros Hin. apply Hy, (remove_first_in _ p), Hin.
  - simpl. intros [->|Hin]; [congruence|tauto].
Qed.

Lemma zsum_app (f : string -> Z) (l1 l2 : list string) :
  zsum f (l1 ++ l2) = zsum f l1 + zsum f l2.
Proof.
  unfold zsum. rewrite map_app, fold_right_app.
  induction l1 as [|y l IH]; simpl; [reflexivity|]. rewrite IH. lia.
Qed.

Lemma zsum_ext (f g : string -> Z) (l : list string) :
  (forall x, In x l -> f x = g x) -> zsum f l = zsum g l.
Proof.
  unfold zsum. induction l as [|y l IH]; simpl; intros H; [reflexivity|].
  rewrite H, IH by auto. reflexivity.
Qed.

Lemma zsum_nonneg (f : string -> Z) (l : list string) :
  (forall x, In x l -> 0 <= f x) -> 0 <= zsum f l.
Proof.
  unfold zsum. induction l as [|y l IH]; simpl; intros H; [lia|].
  assert (0 <= fold_right Z.add 0 (map f l)) by (apply IH; auto).
  specialize (H y (or_introl eq_refl)). lia.
Qed.

Lemma zsum_remove_first (f : string -> Z) (p : string) (l : list string) :
  In p l -> zsum f l = f p + zsum f (remove_first p l).
Proof.
  unfold zsum. induction l as [|y l IH]; simpl; [tauto|]. intros H.
  destruct (String.eqb_spec p y) as [->|Hne]; [reflexivity|].
  destruct H as [->|H]; [congruence|]. simpl. rewrite IH by exact H. lia.
Qed.

Lemma process_next_fields (s : path_list) :
  pl_items (process_next_size_worker s) = pl_items s /\
  pl_sizes (process_next_size_worker s) = pl_sizes s /\
  pl_pending (process_next_size_worker s) = pl_pending s /\
  pl_total (process_next_size_worker s) = pl_total s /\
  (forall p, In p (pl_queue s) \/ pl_worker s = Some p ->
     In p (pl_queue (process_next_size_worker s)) \/
     pl_worker (process_next_size_worker s) = Some p) /\
  (pl_worker (process_next_size_worker s) = None ->
   pl_queue (process_next_size_worker s) = []).
Proof.
  unfold process_next_size_worker.
  destruct (pl_worker s) as [w|] eqn:Ew.
  { simpl. do 4 (split; [reflexivity|]). rewrite Ew. split; [auto|].
    intros H; discriminate H. }
  destruct (pl_queue s) as [|q qs] eqn:Eq.
  { simpl. do 4 (split; [reflexivity|]). split; [intros p [[]|H]; discriminate H|]. intros _; exact Eq. }
  simpl. do 4 (split; [reflexivity|]). split; [|discriminate].
  intros p [[->|H]|H]; [right; reflexivity|left; exact H|discriminate].
Qed.

Lemma process_next_inv (s : path_list) :
  NoDup (pl_items s) /\
  (forall p, In p (pl_items s) <-> is_Some (pl_sizes s !! p)) /\
  (forall p v, pl_sizes s !! p = Some v -> 0 <= v) /\
  pl_total s = listed_total s /\
  (forall p, p ∈ pl_pending s -> In p (pl_queue s) \/ pl_worker s = Some p) ->
  pl_inv (process_next_size_worker s).
Proof.
  intros (H1 & H2 & H3 & H4 & H5).
  destruct (process_next_fields s) as (E1 & E2 & E3 & E4 & E5 & E6).
  unfold pl_inv, listed_total. rewrite E1, E2, E3, E4. repeat split; auto.
  - apply H2.
  - apply H2.
Qed.

Lemma pl_inv_init (abspath : string -> string) : pl_inv pl_init.
Proof.
  unfold pl_inv, pl_init, listed_total. simpl. repeat split.
  - constructor.
  - tauto.
  - rewrite lookup_empty. intros [? ?]; discriminate.
  - intros p v. rewrite lookup_empty. discriminate.
  - intros p Hp. set_solver.
Qed.

Lemma add_path_inv (abspath : string -> string) (p : string) (s : path_list) :
  pl_inv s -> pl_inv (add_path abspath p s).
Proof.
  intros (H1 & H2 & H3 & H4 & H5 & H6). unfold add_path.
  set (q := abspath p).
  destruct (existsb (String.eqb q) (pl_items s)) eqn:E;
    [repeat split; auto; apply H2|].
  assert (Hq : ~ In q (pl_items s)).
  { intros Hin. assert (existsb (String.eqb q) (pl_items s) = true) as Ht
      by (apply existsb_exists; exists q; split; [exact Hin|apply String.eqb_refl]).
    congruence. }
  unfold start_size_worker. apply process_next_inv. cbn [pl_items pl_sizes pl_pending
    pl_queue pl_total pl_worker]. split; [|split; [|split; [|split]]].
  - apply NoDup_app. split; [exact H1|]. split; [|apply NoDup_singleton].
    intros x Hx. rewrite list_elem_of_singleton. intros ->.
    apply Hq, list_elem_of_In, Hx.
  - intros x. rewrite in_app_iff, lookup_insert_is_Some', <- H2. simpl. tauto.
  - intros x v. rewrite lookup_insert_Some. intros [[_ <-]|[_ Hx]]; [lia|].
    apply (H3 x v Hx).
  - unfold listed_total. cbn [pl_items pl_sizes]. rewrite zsum_app, H4.
    unfold listed_total.
    assert (Hs : zsum (fun x => default 0 (<[q:=0]> (pl_sizes s) !! x)) [q] = 0)
      by (unfold zsum; simpl; rewrite lookup_insert_eq; reflexivity).
    rewrite Hs, Z.add_0_r. apply zsum_ext. intros x Hx.
    rewrite lookup_insert_ne; [reflexivity|]. intros ->. contradiction.
  - intros x Hx. apply elem_of_union in Hx as [Hx|Hx].
    + apply elem_of_singleton in Hx as ->. left. apply in_app_iff. right; left; reflexivity.
    + destruct (H5 x Hx) as [A|A]; [left; apply in_app_iff; left; exact A|right; exact A].
Qed.

Lemma remove_item_inv (s : path_list) (path : string) :
  pl_inv s -> pl_inv (remove_item s path).
Proof.
  intros (H1 & H2 & H3 & H4 & H5 & H6).
  destruct (remove_first_nodup path _ H1) as [N1 N2].
  set (f := fun p => default 0 (pl_sizes s !! p)).
  assert (Hf : forall x, In x (remove_first path (pl_items s)) ->
            default 0 (delete path (pl_sizes s) !! x) = f x).
  { intros x Hx. rewrite lookup_delete_ne; [reflexivity|]. intros ->. tauto. }
  assert (Hnn : forall l, 0 <= zsum f l).
  { intros l. apply zsum_nonneg. intros x _. unfold f.
    destruct (pl_sizes s !! x) eqn:E; simpl; [apply (H3 x z E)|lia]. }
  unfold pl_inv, remove_item, listed_total.
  cbn [pl_items pl_sizes pl_pending pl_queue pl_total pl_worker].
  split; [exact N1|]. split; [|split; [|split; [|split]]].
  - intros x. rewrite lookup_delete_is_Some, <- H2. split.
    + intros Hx. split; [intros ->; tauto|]. apply (remove_first_in _ path), Hx.
    + intros [Hne Hx]. apply remove_first_keeps; auto.
  - intros x v. rewrite lookup_delete_Some. intros [_ Hx]. apply (H3 x v Hx).
  - rewrite (zsum_ext _ f) by exact Hf. rewrite H4. unfold listed_total.
    fold f. destruct (in_dec String.string_dec path (pl_items s)) as [Hin|Hout].
    + rewrite (zsum_remove_first f path) by exact Hin. fold (f path).
      specialize (Hnn (remove_first path (pl_items s))). lia.
    + rewrite remove_first_notin by exact Hout.
      assert (E : pl_sizes s !! path = None).
      { destruct (pl_sizes s !! path) eqn:E; [|reflexivity].
        exfalso. apply Hout, H2. rewrite E. eauto. }
      rewrite E. specialize (Hnn (pl_items s)). simpl. lia.
  - intros x Hx. apply elem_of_difference in Hx as [Hx Hne].
    rewrite elem_of_singleton in Hne.
    destruct (H5 x Hx) as [A|A]; [left; apply remove_first_keeps; auto|right; exact A].
  - intros Hw. rewrite (H6 Hw). reflexivity.
Qed.

Lemma remove_selected_inv (sel : list string) (s : path_list) :
  pl_inv s -> pl_inv (remove_selected sel s).
Proof.
  unfold remove_selected. revert s.
  induction sel as [|x sel IH]; intros s H; [exact H|].
  simpl. apply IH, remove_item_inv, H.
Qed.

Lemma clear_list_inv (s : path_list) : pl_inv (clear_list s).
Proof.
  unfold pl_inv, clear_list, listed_total. simpl. repeat split.
  - constructor.
  - tauto.
  - rewrite lookup_empty. intros [? ?]; discriminate.
  - intros p v. rewrite lookup_empty. discriminate.
  - intros p Hp. set_solver.
Qed.

Lemma size_done_inv (abspath : string -> string) (s : path_list) (size : Z) :
  0 <= size -> pl_inv s -> pl_inv (list_step abspath s (LSizeDone size)).
Proof.
  intros Hsz H. pose proof H as (H1 & H2 & H3 & H4 & H5 & H6). simpl.
  destruct (pl_worker s) as [path|] eqn:Ew; [|exact H].
  unfold on_size_worker_finished, on_size_computed.
  destruct (pl_sizes s !! path) as [prev|] eqn:Es; apply process_next_inv;
  cbn [pl_items pl_sizes pl_pending pl_queue pl_total pl_worker].
  - assert (Hin : In path (pl_items s)) by (apply H2; rewrite Es; eauto).
    split; [exact H1|]. split; [|split; [|split]].
    + intros x. rewrite lookup_insert_is_Some', <- H2. split; [auto|].
      intros [<-|A]; auto.
    + intros x v. rewrite lookup_insert_Some. intros [[_ <-]|[_ Hx]]; [lia|].
      apply (H3 x v Hx).
    + unfold listed_total. cbn [pl_items pl_sizes].
      rewrite H4. unfold listed_total.
      rewrite !(zsum_remove_first _ path _ Hin), lookup_insert_eq, Es.
      destruct (remove_first_nodup path _ H1) as [_ N2].
      rewrite (zsum_ext (fun p => default 0 (<[path:=size]> (pl_sizes s) !! p))
                 (fun p => default 0 (pl_sizes s !! p))).
      * simpl. lia.
      * intros x Hx. rewrite lookup_insert_ne; [reflexivity|]. intros ->. tauto.
    + intros x Hx. apply elem_of_difference in Hx as [Hx Hne].
      rewrite elem_of_singleton in Hne.
      destruct (H5 x Hx) as [A|A]; [left; exact A|]. congruence.
  - split; [exact H1|]. split; [exact H2|]. split; [exact H3|]. split; [exact H4|].
    intros x Hx. apply elem_of_difference in Hx as [Hx Hne].
    rewrite elem_of_singleton in Hne.
    destruct (H5 x Hx) as [A|A]; [left; exact A|]. congruence.
Qed.

Lemma list_events_inv (abspath : string -> string) (evs : list list_event)
    (s : path_list) :
  size_results_nonneg evs -> pl_inv s -> pl_inv (fold_left (list_step abspath) evs s).
Proof.
  revert s. induction evs as [|e evs IH]; intros s Hev H; [exact H|].
  simpl. apply IH.
  - intros size Hin. apply Hev. right. exact Hin.
  - destruct e as [p|sel| |size].
    + apply add_path_inv, H.
    + apply remove_selected_inv, H.
    + apply clear_list_inv.
    + apply size_done_inv; [apply Hev; left; reflexivity|exact H].
Qed.

(** Whatever sequence of additions, removals, clears and completed size
    computations the source list goes through (the computed sizes being
    byte counts, so not negative): no path is listed twice, a size is
    recorded exactly for the listed paths, the total size shown is the
    sum of the recorded sizes of the listed paths (so never negative),
    and while some path is still waiting for its size a size worker is
    running, so the pending set is never stuck without one. *)
Theorem source_list_bookkeeping (abspath : string -> string)
    (evs : list list_event) :
  size_results_nonneg evs ->
  NoDup (pl_items (run_list_events abspath evs)) /\
  (forall p, In p (pl_items (run_list_events abspath evs)) <->
             is_Some (pl_sizes (run_list_events abspath evs) !! p)) /\
  pl_total (run_list_events abspath evs) = listed_total (run_list_events abspath evs) /\
  0 <= pl_total (run_list_events abspath evs) /\
  (pl_pending (run_list_events abspath evs) <> ∅ ->
   exists p, pl_worker (run_list_events abspath evs) = Some p).
Proof.
  intros Hev.
  destruct (list_events_inv abspath evs pl_init Hev (pl_inv_init abspath))
    as (H1 & H2 & H3 & H4 & H5 & H6).
  unfold run_list_events. split; [exact H1|]. split; [exact H2|].
  split; [exact H4|]. split.
  - rewrite H4. apply zsum_nonneg. intros x _.
    destruct (pl_sizes _ !! x) eqn:E; simpl; [apply (H3 x z E)|lia].
  - intros Hne. apply set_choose_L in Hne as [x Hx].
    destruct (pl_worker (fold_left (list_step abspath) evs pl_init)) as [w|] eqn:Ew;
      [eauto|].
    destruct (H5 x Hx) as [A|A]; [|discriminate]. rewrite (H6 eq_refl) in A.
    destruct A.
Qed.

Lemma source_list_bookkeeping_witness :
  size_results_nonneg [LAdd "a"; LAdd "b"; LAdd "a"; LSizeDone 10; LRemove ["b"];
                       LAdd "c"; LSizeDone 7] /\
  (NoDup (pl_items (run_list_events (fun x => x) [LAdd "a"; LAdd "b"; LAdd "a";
     LSizeDone 10; LRemove ["b"]; LAdd "c"; LSizeDone 7])) /\
  (forall p, In p (pl_items (run_list_events (fun x => x) [LAdd "a"; LAdd "b";
     LAdd "a"; LSizeDone 10; LRemove ["b"]; LAdd "c"; LSizeDone 7])) <->
     is_Some (pl_sizes (run_list_events (fun x => x) [LAdd "a"; LAdd "b"; LAdd "a";
     LSizeDone 10; LRemove ["b"]; LAdd "c"; LSizeDone 7]) !! p)) /\
  pl_total (run_list_events (fun x => x) [LAdd "a"; LAdd "b"; LAdd "a";
     LSizeDone 10; LRemove ["b"]; LAdd "c"; LSizeDone 7]) =
  listed_total (run_list_events (fun x => x) [LAdd "a"; LAdd "b"; LAdd "a";
     LSizeDone 10; LRemove ["b"]; LAdd "c"; LSizeDone 7]) /\
  0 <= pl_total (run_list_events (fun x => x) [LAdd "a"; LAdd "b"; LAdd "a";
     LSizeDone 10; LRemove ["b"]; LAdd "c"; LSizeDone 7]) /\
  (pl_pending (run_list_events (fun x => x) [LAdd "a"; LAdd "b"; LAdd "a";
     LSizeDone 10; LRemove ["b"]; LAdd "c"; LSizeDone 7]) <> ∅ ->
   exists p, pl_worker (run_list_events (fun x => x) [LAdd "a"; LAdd "b";
     LAdd "a"; LSizeDone 10; LRemove ["b"]; LAdd "c"; LSizeDone 7]) = Some p)).
Proof.
  assert (H : size_results_nonneg [LAdd "a"; LAdd "b"; LAdd "a"; LSizeDone 10;
                LRemove ["b"]; LAdd "c"; LSizeDone 7]).
  { intros size Hin. simpl in Hin.
    repeat (destruct Hin as [Hin|Hin]; [try discriminate Hin; injection Hin; lia|]).
    destruct Hin. }
  split; [exact H|]. apply (source_list_bookkeeping (fun x => x)), H.
Defined.

(* ------------------------------------------------------------------ *)
(** ** The media usage label *)

Lemma pct_over_100 (e u : Z) :
  0 < u -> (u < e <-> (100 < inject_Z e / inject_Z u * 100)%Q).
Proof.
  intros Hu. destruct u as [|p|p]; try lia.
  unfold Qlt, Qdiv, Qmult, Qinv, inject_Z. simpl. lia.
Qed.

(** Whenever the label shows the estimated size against the usable
    capacity, it uses the warning colour exactly when the percentage it
    shows is above 100%, except when the capacity is no larger than the
    headroom: then the usable capacity is 0, the percentage shown is 0,
    and the warning colour is on for any positive estimate. *)
Theorem media_usage_warning (burning use_iso_input create_iso pending
    iso_path_set : bool) (iso_size : option Z) (total_size : Z)
    (cap_opt : option Z) (est usable cap : Z) (pct : Q) (warn : bool) :
  update_media_usage_label burning use_iso_input create_iso pending
    iso_path_set iso_size total_size cap_opt = MLUsage est usable pct cap warn ->
  (0 < usable -> (warn = true <-> (100 < pct)%Q)) /\
  (usable = 0 -> pct = 0%Q /\ (warn = true <-> 0 < est)).
Proof.
  unfold update_media_usage_label.
  destruct burning; [discriminate|].
  destruct (pending && negb (use_iso_input && negb create_iso)); [discriminate|].
  destruct (_ && _ && _); [discriminate|].
  destruct cap_opt as [c|]; [|discriminate].
  destruct (negb (c =? 0) && negb create_iso) eqn:Ec; [|discriminate].
  intros H. injection H as <- <- <- <- <-.
  apply andb_prop in Ec as [Ec _]. apply negb_true_iff in Ec.
  unfold is_over_capacity. rewrite Ec. cbv zeta.
  set (u := Z.max 0 (c - Z.max capacity_headroom_bytes (quarter_percent c))).
  set (e := estimate_image_size use_iso_input create_iso _).
  split.
  - intros Hu. destruct (Z.eqb_spec u 0) as [E|_]; [lia|].
    rewrite <- pct_over_100 by exact Hu. rewrite Z.gtb_ltb.
    destruct (Z.ltb_spec u e); split; intros; lia || discriminate.
  - intros Hu. rewrite Hu. simpl. split; [reflexivity|]. rewrite Z.gtb_ltb.
    destruct (Z.ltb_spec 0 e); split; intros; lia || discriminate.
Qed.

Lemma media_usage_warning_witness :
  update_media_usage_label false false false false false None 1000 (Some 20000000)
    = MLUsage 134218728 0 0 20000000 true /\
  (0 < 0 -> (true = true <-> (100 < 0)%Q)) /\
  (0 = 0 -> 0%Q = 0%Q /\ (true = true <-> 0 < 134218728)).
Proof.
  split; [vm_compute; reflexivity|].
  apply (media_usage_warning false false false false false None 1000
    (Some 20000000) 134218728 0 20000000 0%Q true).
  vm_compute. reflexivity.
Defined.

